(* ===== verification/_CoqProject ===== *)
-Q . S2P
Prelude.v
JsNumber.v
Decimal.v
Utils.v
Sleep.v
Dom.v
Action.v
StyleVars.v
Color.v
Plot.v
Stores.v
Types.v
Eslint.v
