(* ===== verification/Prelude.v ===== *)
(** * A verification library for the toerings dashboard binding layer

    The repository (acarl005/toerings) is a Svelte dashboard of machine
    telemetry.  Its TypeScript core, under [src/src/lib], has three parts,
    leaves first:
    - [utils.ts]: the formatting helpers [toMetric] (byte counts with a
      unit suffix) and [calcStrokeWidth] (ring count to stroke width), the
      in-place FIFO window [saturatedPush] and the timer [sleep];
    - [stores.ts]: the theme, seven Svelte writable cells (six colours and
      the font family);
    - [actions.ts]: two Svelte actions, [styleVars] (projects a JS object
      onto an element's inline CSS custom properties, diffing on update)
      and [uPlotAction] (builds a uPlot sparkline once and mutates it on
      update, with its options built by [makePlotOptions]).
    [src/src/vite-env.d.ts] declares the shape of the telemetry snapshot,
    and [src/.eslintrc.cjs] is the lint configuration the sources are
    checked with.
    Data flows from a snapshot into a window ([saturatedPush]), then into
    an action's [update]; the theme's colours flow into the chart binder's
    [color] parameter.

    ** Files, in dependency order

    - [Prelude] (this file): the result type of code that can throw
      ([result], [exn]), reflexive-transitive closure [star], final states
      [irred] and infinite runs [infseq] of a step relation (how loops are
      shown to terminate or diverge), the window function [lastn], lemmas
      on [Q], the tactics [qdecide], [by_decide], [qcase] and the hint
      databases [toerings] (for [auto]) and [toerings_rw] (for
      [autorewrite]).
    - [JsNumber]: JavaScript numbers as [Fin q | PosInf | NegInf | NaN]
      with rational [q] (the theorems need exact arithmetic, not rounding;
      every value the modelled code computes from a finite double is a
      rational), the ECMA comparison, strict equality and truthiness, and
      [Number.prototype.toFixed] (ECMA-262 21.1.3.3) with its RangeError;
      the exponent form used at or above 1e21 is a parameter.
    - [Decimal]: a reference reader of fixed-point decimals and the proof
      that reading the output of [toFixed] gives back the rounded value,
      within half a unit of the last printed digit.
    - [Utils]: [ToMetric] ([toMetric], its [while (bytes > 1000)] loop as a
      fuelled [metric_loop] and as the step [loop_step]), [StrokeWidth]
      ([calcStrokeWidth] as its chain of [===] and [<] tests) and
      [SaturatedPush] ([saturatedPush], its [while (arr.length > limit)]
      loop as [shift_loop] and as the step [shift_step]).
    - [Sleep]: [sleep] on a model of the browser event loop: callers as
      programs that [await], timers as macrotasks (with WebIDL's 32-bit
      conversion of the delay and HTML's nesting clamp), promise reactions
      as microtasks; [loop_step] is the loop's step.
    - [Dom]: JS values, plain objects (ordered lists of own properties), a
      heap of objects shared by caller and binder, and the inline style
      with CSSOM [setProperty]/[removeProperty] (the CSS value parser is a
      section parameter).
    - [Action]: the Svelte action contract as the class [SvelteAction]
      (attach, optional [update], optional [destroy]) and the runtime's
      side ([mount], [param_changed], [unmount], [run_lifecycle]).
    - [StyleVars]: [styleVars] and its [update], as functions of a world
      (heap and the element's style) and the handle (the [props] reference
      the closure holds); [sv_step] is the step relation of updates and
      caller writes to other objects.
    - [Color]: the colour capability as the class [Colord] (parse, alpha,
      lighten, toHslString), [plot_style], and the free instance
      [ColorTerm] that records the calls for concrete runs.
    - [Plot]: [makePlotOptions], [uPlotAction] and its [update] over a
      store of uPlot instances with a deferred [redraw] that resolves the
      series' style producers; [chart_step] interleaves updates and
      redraws; [uPlot_action] is the [SvelteAction] instance.
    - [Stores]: Svelte's [writable] ([Store]: set, update, subscribe,
      unsubscribe, with [safe_not_equal]) and the theme cells of
      [stores.ts] ([Theme]): the module body allocates one store per
      [writable(...)] call and binds each export to it.
    - [Types]: the interfaces of [vite-env.d.ts] as records.
    - [Eslint]: the configuration object of [.eslintrc.cjs] field by field,
      and the part of ESLint's eslintrc semantics that decides its effect
      on a file ([lint]): the [root] cascade, [extends] then the object's
      own element then [overrides], rule merging (a bare severity keeps
      earlier options; an unknown severity is an error), declared globals
      over environment globals, and override file patterns ([glob_match]
      with its relational meaning [gmatch]).

    ** What is proved

    - Style binder ([StyleVars]): along every run of updates and caller
      writes the element's custom properties mirror the tracked object
      (a refinement of the spec's StyleBinding invariant); the exact effect
      of [update] on each property, on the heap and on other declarations;
      idempotence; equivalence with a full re-render (remove the old keys,
      set the new entries) when the new values are settable; and the
      failure of the invariant when
      the same object is passed again, because [update] deletes keys from
      it.
    - Chart binder ([Plot]): attach builds one instance with the spec's
      options; [update] reuses it and replaces its data; after any
      interleaving of updates and redraws the last paint shows the last
      data and colour; each redraw re-evaluates the colour producers; the
      action has no [destroy], so the instance outlives unmount.
    - [toMetric]: its value on every finite input, the "0B" cases, the
      unit's monotonicity and bounds, divergence on Infinity, and the round
      trip: the printed number reads back to [bytes / 1024^k] within half
      a unit of its last digit.
    - [saturatedPush]: the window it leaves (the last [floor limit]
      elements) for a non-negative limit and over any push sequence,
      divergence on a negative limit and no eviction on NaN.
    - [calcStrokeWidth]: the spec's table on positive integers and
      monotonicity there.
    - [sleep]: it never resumes inside the current task (not even with
      0); the timer it registers and its delay, by range of [ms] (the
      32-bit conversion, its wrap-around, the nesting clamp); along every
      run of the loop, whatever else the page runs, the continuation logs
      nothing before that delay has passed (an invariant of the step
      relation); and on an idle loop it resumes after exactly the delay.
    - Lint configuration: in every file, whatever lies above the project
      and whatever the extended configurations set, each rule is in force
      as written; the declared globals are exactly the interfaces of
      [vite-env.d.ts], all writable; the Svelte processor runs exactly on
      files whose base name ends in ".svelte".
    - Theme: each export of [stores.ts] is a store of its own, so the six
      colour cells start at the module's literals and behave as six
      independent registers under any sequence of store operations, and
      the font cell likewise.

    ** Fuel

    [toMetric_fuel] runs its loop with [metric_fuel = 104] iterations: a
    finite double is below 2^1024 = 1024^102.4, so at most 103 divisions
    bring it to 1000 or below ([metric_loop_enough_fuel]).  [saturatedPush]
    runs its loop with [length arr + 2]: with a non-negative limit each
    iteration shortens the array and at most [length arr + 1] run
    ([shift_loop_window]).  On Infinity and on a negative limit no fuel
    suffices; the development proves that divergence with [infseq] on the
    step relation rather than reading it off the fuel.

    ** Not modelled

    - Aliasing between the array [saturatedPush] mutates and a chart that
      holds the same array: no code under [src/] passes a window to a
      chart (the Svelte components that would are not in the repository),
      so [PlotData] arrays are values here and [saturatedPush] returns the
      array's new contents.
    - The exponent form of [toFixed] at or above 1e21, a parameter of
      [toMetric]; colord's colour arithmetic, abstracted by [Colord]; the
      uPlot renderer below [redraw]; the Svelte compiler's reactivity,
      abstracted by [SvelteAction] and [Store]; the other task sources of
      the browser (input, rendering), which only interleave more tasks
      with the timers [Sleep] models.
    - The configurations [.eslintrc.cjs] extends (eslint:recommended and
      the plugins' presets) and the environments' global sets: they are
      packages, parameters [ext] and [env_globals] of [Eslint.lint]; what
      each rule reports is the rule's implementation in ESLint.
    - The collector (not in the repository) and the module imports of the
      sources (lines 1-3 of actions.ts, 1-2 of stores.ts), which only name
      the libraries modelled by [Colord], [Store] and the uPlot store. *)

From stdpp Require Export base list strings gmap.
From Stdlib Require Export QArith Qround Qabs Lqa.
Close Scope Q_scope.

Declare Scope toerings_scope.
Delimit Scope toerings_scope with toerings.
Open Scope toerings_scope.

Create HintDb toerings.
Create Rewrite HintDb toerings_rw.

(** ** Exceptions and results

    JavaScript code either returns a value or throws.  The exceptions the
    modelled code can raise are listed in [exn]. *)

Inductive exn :=
| RangeError
| TypeError.

#[export] Instance exn_eq_dec : EqDecision exn.
Proof. solve_decision. Defined.

Inductive result (A : Type) :=
| Ok (a : A)
| Throw (e : exn).
Arguments Ok {A} a.
Arguments Throw {A} e.

Definition result_bind {A B} (c : result A) (k : A -> result B) : result B :=
  match c with
  | Ok a => k a
  | Throw e => Throw e
  end.

Definition result_map {A B} (f : A -> B) (c : result A) : result B :=
  result_bind c (fun a => Ok (f a)).

Notation "x ←? c ;; k" := (result_bind c (fun x => k))
  (at level 60, c at next level, right associativity) : toerings_scope.

Lemma result_bind_ok {A B} (a : A) (k : A -> result B) :
  result_bind (Ok a) k = k a.
Proof. reflexivity. Qed.

Lemma result_bind_throw {A B} (e : exn) (k : A -> result B) :
  result_bind (Throw e) k = Throw e.
Proof. reflexivity. Qed.

#[export] Hint Rewrite @result_bind_ok @result_bind_throw : toerings_rw.

(** ** Step relations

    A [while] loop of the source is modelled twice: as a fuelled
    [Fixpoint] that computes, and as a one-step relation on the loop's
    state.  Divergence is stated with [infseq] (an infinite sequence of
    steps exists), termination with [star] to a state with no step. *)

Section Sequences.
Context {A : Type} (R : A -> A -> Prop).

Inductive star : A -> A -> Prop :=
| star_refl a : star a a
| star_step a b c : R a b -> star b c -> star a c.

Definition irred (a : A) : Prop := forall b, ~ R a b.

Definition infseq (a : A) : Prop :=
  exists X : A -> Prop, X a /\ (forall x, X x -> exists y, R x y /\ X y).

Lemma star_trans a b c : star a b -> star b c -> star a c.
Proof. induction 1; eauto using star. Qed.

(** A property every step preserves holds along every run. *)
Lemma star_invariant (P : A -> Prop) a b :
  (forall x y, P x -> R x y -> P y) -> star a b -> P a -> P b.
Proof. intros Hpres Hs. induction Hs; eauto. Qed.

(** A set of states closed under progress yields divergence from each
    of its members. *)
Lemma infseq_from_closed (X : A -> Prop) a :
  X a -> (forall x, X x -> exists y, R x y /\ X y) -> infseq a.
Proof. intros Ha Hc. exists X. auto. Qed.

(** For a deterministic relation, a diverging state never reaches a
    final state: the loop it models does not return. *)
Lemma infseq_star_not_irred
    (Hdet : forall a b c, R a b -> R a c -> b = c) a b :
  infseq a -> star a b -> ~ irred b.
Proof.
  intros [X [Ha Hc]] Hs. induction Hs as [a|a b c Hab Hbc IH].
  - destruct (Hc a Ha) as [y [Hy _]]. intros Hirr. exact (Hirr y Hy).
  - apply IH. destruct (Hc a Ha) as [y [Hy HXy]].
    by rewrite (Hdet _ _ _ Hab Hy).
Qed.
End Sequences.

#[export] Hint Constructors star : toerings.

(** ** Windows: the last [k] elements of a list *)

Definition lastn {A} (k : nat) (l : list A) : list A := drop (length l - k) l.

Section Lastn.
Context {A : Type}.
Implicit Types (l : list A) (x : A).

Lemma length_lastn k l : length (lastn k l) = Nat.min k (length l).
Proof. unfold lastn. rewrite length_drop. lia. Qed.

Lemma lastn_all k l : length l <= k -> lastn k l = l.
Proof. intros H. unfold lastn. replace (length l - k) with 0 by lia. done. Qed.

Lemma lastn_suffix k l : exists p, l = p ++ lastn k l.
Proof. exists (take (length l - k) l). unfold lastn. by rewrite take_drop. Qed.

Lemma lastn_tail k l : k < length l -> lastn k (tail l) = lastn k l.
Proof.
  intros H. unfold lastn. destruct l as [|x l]; simpl in *; [lia|].
  replace (S (length l) - k) with (S (length l - k)) by lia. done.
Qed.

(** Pushing onto a window and trimming it again keeps the last [k]
    elements of the whole history. *)
Lemma lastn_app_lastn k l l' : lastn k (lastn k l ++ l') = lastn k (l ++ l').
Proof.
  unfold lastn. rewrite !length_app, length_drop, !drop_app, drop_drop, length_drop.
  f_equal; f_equal; lia.
Qed.
End Lastn.

#[export] Hint Rewrite @length_lastn : toerings_rw.

(** ** Rationals

    JavaScript numbers are IEEE doubles; every finite double is a dyadic
    rational, and the only arithmetic the modelled code performs on them
    (division by 1024, comparisons) is exact on dyadic rationals within the
    double range.  They are therefore modelled as [Q]. *)

Lemma Qle_bool_false x y : Qle_bool x y = false <-> (y < x)%Q.
Proof.
  split; intros H.
  - apply Qnot_le_lt. intros Hle. apply Qle_bool_iff in Hle. congruence.
  - destruct (Qle_bool x y) eqn:E; [|done]. apply Qle_bool_iff in E. lra.
Qed.

Lemma Qeq_bool_false x y : Qeq_bool x y = false <-> ~ (x == y)%Q.
Proof.
  split; intros H.
  - intros He. apply Qeq_bool_iff in He. congruence.
  - destruct (Qeq_bool x y) eqn:E; [|done]. apply Qeq_bool_iff in E. done.
Qed.

(** [qdecide] closes a closed comparison of rational constants by
    computation. *)
Ltac qdecide :=
  first
    [ apply Qle_bool_iff; vm_compute; reflexivity
    | apply Qeq_bool_iff; vm_compute; reflexivity
    | vm_compute; reflexivity
    | let H := fresh in intros H; vm_compute in H; discriminate ].

(** [by_decide] proves a closed decidable proposition by evaluating its
    decision procedure. *)
Ltac by_decide := apply (bool_decide_unpack _); vm_compute; exact I.

(** [qcase] splits on a boolean comparison of rationals occurring in the
    goal and turns both branches into propositions. *)
Ltac qcase :=
  match goal with
  | |- context [Qle_bool ?x ?y] =>
      let E := fresh "E" in
      destruct (Qle_bool x y) eqn:E;
      [apply Qle_bool_iff in E | apply Qle_bool_false in E]
  | |- context [Qeq_bool ?x ?y] =>
      let E := fresh "E" in
      destruct (Qeq_bool x y) eqn:E;
      [apply Qeq_bool_iff in E | apply Qeq_bool_false in E]
  end.

Lemma inject_Z_nat_nonneg (n : nat) : (0 <= inject_Z (Z.of_nat n))%Q.
Proof. change 0%Q with (inject_Z 0). rewrite <- Zle_Qle. lia. Qed.

#[export] Hint Resolve inject_Z_nat_nonneg : toerings.

(** A natural number exceeds a non-negative rational exactly when it
    exceeds its floor. *)
Lemma nat_gt_Qfloor (n : nat) (q : Q) :
  (0 <= q)%Q -> (q < inject_Z (Z.of_nat n))%Q <-> Z.to_nat (Qfloor q) < n.
Proof.
  intros Hq. pose proof (Qfloor_resp_le 0 q Hq) as H0.
  change (Qfloor 0) with 0%Z in H0.
  pose proof (Qfloor_le q) as Hle. pose proof (Qlt_floor q) as Hlt. split; intros H.
  - assert (Qfloor q < Z.of_nat n)%Z; [|lia].
    rewrite Zlt_Qlt. eapply Qle_lt_trans; eauto.
  - eapply Qlt_le_trans; [eassumption|]. rewrite <- Zle_Qle. lia.
Qed.

(** The floor of [q] is below the integer [z] exactly when [q] is. *)
Lemma Qfloor_lt_iff (q : Q) (z : Z) : (Qfloor q < z)%Z <-> (q < inject_Z z)%Q.
Proof.
  pose proof (Qfloor_le q). pose proof (Qlt_floor q). split; intros H'.
  - eapply Qlt_le_trans; [eassumption|]. rewrite <- Zle_Qle. lia.
  - rewrite Zlt_Qlt. eapply Qle_lt_trans; eauto.
Qed.

(** The floor of [q] is at least [z] exactly when [q] is. *)
Lemma Qfloor_ge_iff (q : Q) (z : Z) : (z <= Qfloor q)%Z <-> (inject_Z z <= q)%Q.
Proof.
  split; intros H'.
  - eapply Qle_trans; [|apply Qfloor_le]. by rewrite <- Zle_Qle.
  - rewrite <- (Qfloor_Z z). by apply Qfloor_resp_le.
Qed.
