(* ===== verification/JsNumber.v ===== *)
(** * JavaScript numbers

    The model of the ECMAScript Number values the source computes with:
    finite values as rationals (every finite double is one; see
    [Prelude]), the two infinities and NaN.  It gives the operators of the
    source ([>], [<], [===], truthiness in [!x], [x /= 1024]) their
    ECMA-262 semantics and models [Number.prototype.toFixed] (ECMA-262
    21.1.3.3), which [toMetric] calls. *)

From S2P Require Import Prelude.
From Stdlib Require Import DecimalString.

Inductive number :=
| Fin (q : Q)
| PosInf
| NegInf
| NaN.

(** The number value of an array length or an index. *)
Definition num_of_nat (n : nat) : number := Fin (inject_Z (Z.of_nat n)).

(** ** Relational operators (ECMA-262 Number::lessThan)

    [js_lt a b] is [a < b]; a comparison with NaN is false. *)
Definition js_lt (a b : number) : bool :=
  match a, b with
  | NaN, _ | _, NaN => false
  | PosInf, _ => false
  | _, PosInf => true
  | _, NegInf => false
  | NegInf, _ => true
  | Fin x, Fin y => negb (Qle_bool y x)
  end.

(** [a > b] is [b < a] (IsLessThan with the operands swapped). *)
Definition js_gt (a b : number) : bool := js_lt b a.

(** [a === b] on numbers (Number::equal): NaN is equal to nothing. *)
Definition js_strict_eq (a b : number) : bool :=
  match a, b with
  | Fin x, Fin y => Qeq_bool x y
  | PosInf, PosInf | NegInf, NegInf => true
  | _, _ => false
  end.

(** ToBoolean: [0], [-0] and NaN are falsy. *)
Definition js_truthy (a : number) : bool :=
  match a with
  | Fin x => negb (Qeq_bool x 0)
  | PosInf | NegInf => true
  | NaN => false
  end.

(** Division by a positive finite constant, as in [bytes /= 1024]. *)
Definition js_div_pos (a : number) (d : positive) : number :=
  match a with
  | Fin x => Fin (x / inject_Z (Zpos d))
  | other => other
  end.

(** The comparisons stay folded under [simpl]; [jscase] opens them. *)
Arguments js_lt : simpl never.
Arguments js_gt : simpl never.
Arguments js_strict_eq : simpl never.

Infix "<ⱼ" := js_lt (at level 70) : toerings_scope.
Infix ">ⱼ" := js_gt (at level 70) : toerings_scope.
Infix "===ⱼ" := js_strict_eq (at level 70) : toerings_scope.

(** ** ToIntegerOrInfinity *)

Inductive int_or_inf :=
| IFin (z : Z)
| IPosInf
| INegInf.

Definition to_integer_or_infinity (a : number) : int_or_inf :=
  match a with
  | NaN => IFin 0
  | Fin x => IFin (Z.quot (Qnum x) (Zpos (Qden x)))
  | PosInf => IPosInf
  | NegInf => INegInf
  end.

(** ** Number.prototype.toFixed (ECMA-262 21.1.3.3) *)

(** Decimal digits of a natural number, without leading zeros ("0" for
    zero): step 10.b of the algorithm. *)
Definition digits (n : N) : string := NilEmpty.string_of_uint (N.to_uint n).

Fixpoint zeros (k : nat) : string :=
  match k with
  | O => ""
  | S k' => "0" +:+ zeros k'
  end.

(** Step 10.c: left-pad with zeros to at least [f + 1] digits and insert
    the decimal point before the last [f] digits. *)
Definition insert_point (m : string) (f : nat) : string :=
  if decide (f = 0) then m
  else
    let m' := if decide (String.length m <= f)
              then zeros (f + 1 - String.length m) +:+ m else m in
    let k := String.length m' in
    String.substring 0 (k - f) m' +:+ "." +:+ String.substring (k - f) f m'.

(** Step 10.a: the integer [n] for which [n / 10^f - x] is closest to
    zero, the larger one on a tie. *)
Definition fixed_round (x : Q) (f : nat) : Z :=
  Qfloor (x * inject_Z (10 ^ Z.of_nat f) + (1 # 2))%Q.

Section ToFixed.
(** Number::toString of a finite double of magnitude at least 10^21
    (exponent notation); toFixed falls back to it (step 9). *)
Context (large_to_string : Q -> string).

Definition number_to_string (a : number) : string :=
  match a with
  | NaN => "NaN"
  | PosInf => "Infinity"
  | NegInf => "-Infinity"
  | Fin x => large_to_string x
  end.

Definition toFixed (x : number) (fractionDigits : number) : result string :=
  match to_integer_or_infinity fractionDigits with
  | IPosInf | INegInf => Throw RangeError
  | IFin f =>
      if decide (f < 0 \/ 100 < f)%Z then Throw RangeError
      else match x with
           | Fin q =>
               let s := if Qle_bool 0 q then "" else "-" in
               let ax := Qabs q in
               if Qle_bool (inject_Z (10 ^ 21)) ax
               then Ok (s +:+ large_to_string ax)
               else Ok (s +:+ insert_point
                                (digits (Z.to_N (fixed_round ax (Z.to_nat f))))
                                (Z.to_nat f))
           | _ => Ok (number_to_string x)
           end
  end.
End ToFixed.

(** ** Basic facts *)

Lemma js_gt_fin x y : (Fin x >ⱼ Fin y) = true <-> (y < x)%Q.
Proof.
  unfold js_gt, js_lt. destruct (Qle_bool x y) eqn:E; simpl.
  - apply Qle_bool_iff in E. split; [done | lra].
  - apply Qle_bool_false in E. done.
Qed.

Lemma js_gt_fin_false x y : (Fin x >ⱼ Fin y) = false <-> (x <= y)%Q.
Proof.
  unfold js_gt, js_lt. destruct (Qle_bool x y) eqn:E; simpl.
  - apply Qle_bool_iff in E. done.
  - apply Qle_bool_false in E. split; [done | lra].
Qed.

Lemma js_lt_fin x y : (Fin x <ⱼ Fin y) = true <-> (x < y)%Q.
Proof. apply js_gt_fin. Qed.

Lemma js_lt_fin_false x y : (Fin x <ⱼ Fin y) = false <-> (y <= x)%Q.
Proof. apply js_gt_fin_false. Qed.

Lemma js_truthy_fin x : js_truthy (Fin x) = false <-> (x == 0)%Q.
Proof.
  simpl. destruct (Qeq_bool x 0) eqn:E; simpl.
  - apply Qeq_bool_iff in E. done.
  - apply Qeq_bool_false in E. done.
Qed.

Lemma js_truthy_fin_true x : ~ (x == 0)%Q -> js_truthy (Fin x) = true.
Proof. intros H. simpl. destruct (Qeq_bool x 0) eqn:E; [|done]. by apply Qeq_bool_iff in E. Qed.

(** NaN compares false with everything: the source's loops whose guard
    is a comparison with NaN never run. *)
Lemma js_gt_nan_l a : (NaN >ⱼ a) = false.
Proof. by destruct a. Qed.

Lemma js_gt_nan_r a : (a >ⱼ NaN) = false.
Proof. by destruct a. Qed.

Lemma js_div_pos_fin x d : js_div_pos (Fin x) d = Fin (x / inject_Z (Zpos d)).
Proof. reflexivity. Qed.

Lemma Qdiv_1024 x : (x / inject_Z 1024 = x * (1 # 1024))%Q.
Proof. reflexivity. Qed.

#[export] Hint Rewrite js_div_pos_fin Qdiv_1024 : toerings_rw.

(** [jscase] splits on a JavaScript comparison of two finite numbers in
    the goal or a hypothesis, leaving the corresponding inequality on
    rationals. *)
Ltac jscase_on t :=
  let E := fresh "E" in
  lazymatch t with
  | (Fin ?x >ⱼ Fin ?y) =>
      destruct (Fin x >ⱼ Fin y) eqn:E;
      [apply js_gt_fin in E | apply js_gt_fin_false in E]
  | (Fin ?x <ⱼ Fin ?y) =>
      destruct (Fin x <ⱼ Fin y) eqn:E;
      [apply js_lt_fin in E | apply js_lt_fin_false in E]
  end.

Ltac jscase :=
  match goal with
  | |- context [?t] => jscase_on t
  | H : context [?t] |- _ => jscase_on t
  end.
