(* ===== verification/Decimal.v ===== *)
(** * Reading back what [toFixed] prints

    [JsNumber.toFixed] builds its result from the decimal digits of an
    integer ([digits]), zero padding ([zeros]) and the insertion of a
    decimal point ([insert_point]).  This file gives a reference reader of
    fixed-point decimals, [parse_fixed] (an optional "-", digits, and
    optionally "." followed by digits), and proves that reading the output
    of [toFixed] on a number below 10^21 gives back the rounded value
    [fixed_round x f / 10^f], which lies within half a unit of the last
    printed digit of [x].  Strings are read as lists of characters. *)

From S2P Require Import Prelude JsNumber.
From Stdlib Require Import Ascii DecimalString DecimalN.

Module Decimal.

(** The value of a decimal digit character, from its code (48 is "0"). *)
Definition digit_val (c : ascii) : option N :=
  let n := N_of_ascii c in
  if (48 <=? n)%N && (n <? 58)%N then Some (n - 48)%N else None.

(** The value of a string of digits, read left to right onto [acc]. *)
Fixpoint dec_val_acc (acc : N) (cs : list ascii) : option N :=
  match cs with
  | [] => Some acc
  | c :: cs =>
      match digit_val c with
      | Some d => dec_val_acc (acc * 10 + d)%N cs
      | None => None
      end
  end.

(** Splits at the first ".". *)
Fixpoint split_dot (cs : list ascii) : list ascii * option (list ascii) :=
  match cs with
  | [] => ([], None)
  | c :: cs' =>
      if decide (c = "."%char) then ([], Some cs')
      else let '(a, b) := split_dot cs' in (c :: a, b)
  end.

Definition pow10 (n : nat) : Q := inject_Z (10 ^ Z.of_nat n).

Definition parse_unsigned (cs : list ascii) : option Q :=
  match split_dot cs with
  | (a, None) =>
      if decide (a = []) then None
      else option_map (fun n => inject_Z (Z.of_N n)) (dec_val_acc 0 a)
  | (a, Some b) =>
      if decide (a = [] \/ b = []) then None
      else match dec_val_acc 0 a, dec_val_acc 0 b with
           | Some n, Some m => Some (inject_Z (Z.of_N n) + inject_Z (Z.of_N m) / pow10 (length b))%Q
           | _, _ => None
           end
  end.

Definition parse_fixed (cs : list ascii) : option Q :=
  match cs with
  | c :: r => if decide (c = "-"%char) then option_map Qopp (parse_unsigned r) else parse_unsigned cs
  | [] => None
  end.

(** ** Strings as lists *)

Lemma list_ascii_app s1 s2 :
  String.list_ascii_of_string (s1 +:+ s2) = String.list_ascii_of_string s1 ++ String.list_ascii_of_string s2.
Proof. induction s1 as [|c s1 IH]; simpl; [done|]. by rewrite IH. Qed.

Lemma list_ascii_substring n m s :
  String.list_ascii_of_string (String.substring n m s) = take m (drop n (String.list_ascii_of_string s)).
Proof.
  revert n m. induction s as [|c s IH]; intros [|n] [|m]; simpl; try done;
    by rewrite IH, ?drop_0.
Qed.

Lemma length_list_ascii s : length (String.list_ascii_of_string s) = String.length s.
Proof. induction s; simpl; auto. Qed.

(** ** Reading digits *)

Definition is_digit (c : ascii) : Prop := is_Some (digit_val c).

Lemma dec_val_acc_app acc a b :
  dec_val_acc acc (a ++ b) = dec_val_acc acc a ≫= fun v => dec_val_acc v b.
Proof.
  revert acc. induction a as [|c a IH]; intros acc; simpl; [done|].
  destruct (digit_val c); [apply IH|done].
Qed.

Lemma dec_val_acc_shift acc cs :
  dec_val_acc acc cs = option_map (fun v => acc * 10 ^ N.of_nat (length cs) + v)%N (dec_val_acc 0 cs).
Proof.
  revert acc. induction cs as [|c cs IH]; intros acc; simpl; [f_equal; lia|].
  destruct (digit_val c) as [d|]; [|done].
  rewrite (IH (acc * 10 + d)%N), (IH (0 * 10 + d)%N).
  destruct (dec_val_acc 0 cs); simpl; [|done]. f_equal.
  rewrite Nat2N.inj_succ, N.pow_succ_r'. nia.
Qed.

Lemma dec_val_acc_digits_Some acc cs :
  Forall is_digit cs -> is_Some (dec_val_acc acc cs).
Proof.
  revert acc. induction cs as [|c cs IH]; intros acc Hcs; simpl; [by eexists|].
  apply Forall_cons in Hcs as [[d Hd] Hcs]. rewrite Hd. by apply IH.
Qed.

Lemma dec_val_acc_is_digit acc cs v : dec_val_acc acc cs = Some v -> Forall is_digit cs.
Proof.
  revert acc. induction cs as [|c cs IH]; intros acc; simpl; [constructor|].
  destruct (digit_val c) eqn:E; [|done]. intros H. constructor; [by eexists|]. eauto.
Qed.

Lemma split_dot_no_dot cs : Forall is_digit cs -> split_dot cs = (cs, None).
Proof.
  induction cs as [|c cs IH]; intros Hcs; simpl; [done|].
  apply Forall_cons in Hcs as [Hc Hcs]. rewrite decide_False, IH by (try done; by intros ->; destruct Hc).
  done.
Qed.

Lemma split_dot_app_dot a b : Forall is_digit a -> split_dot (a ++ "."%char :: b) = (a, Some b).
Proof.
  induction a as [|c a IH]; intros Ha; simpl; [done|].
  apply Forall_cons in Ha as [Hc Ha]. rewrite decide_False, IH by (try done; by intros ->; destruct Hc).
  done.
Qed.

Lemma Forall_is_digit_app a b : Forall is_digit (a ++ b) <-> Forall is_digit a /\ Forall is_digit b.
Proof. apply Forall_app. Qed.

(** ** The digits [toFixed] prints *)

Abbreviation chars := String.list_ascii_of_string.

Lemma dec_val_uint_acc u acc :
  dec_val_acc (Npos acc) (chars (NilEmpty.string_of_uint u)) = Some (Npos (Pos.of_uint_acc u acc)).
Proof.
  revert acc. induction u as [|u IH|u IH|u IH|u IH|u IH|u IH|u IH|u IH|u IH|u IH];
    intros acc; simpl; [done|..]; rewrite <- IH; f_equal; lia.
Qed.

Lemma dec_val_uint u : dec_val_acc 0 (chars (NilEmpty.string_of_uint u)) = Some (N.of_uint u).
Proof.
  induction u as [|u IH|u IH|u IH|u IH|u IH|u IH|u IH|u IH|u IH|u IH]; simpl; [done|apply IH|..];
    rewrite <- dec_val_uint_acc; done.
Qed.

Lemma dec_val_digits n : dec_val_acc 0 (chars (digits n)) = Some n.
Proof. unfold digits. by rewrite dec_val_uint, DecimalN.Unsigned.of_to. Qed.

Lemma digits_nonempty n : chars (digits n) <> [].
Proof.
  intros He. pose proof (dec_val_digits n) as Hv. rewrite He in Hv. injection Hv as <-.
  vm_compute in He. discriminate.
Qed.

Lemma digits_are_digits n : Forall is_digit (chars (digits n)).
Proof. eapply dec_val_acc_is_digit, dec_val_digits. Qed.

Lemma chars_zeros k : chars (zeros k) = replicate k "0"%char.
Proof. induction k as [|k IH]; [done|]. simpl zeros. by rewrite list_ascii_app, IH. Qed.

Lemma dec_val_zeros acc k : dec_val_acc acc (replicate k "0"%char) = Some (acc * 10 ^ N.of_nat k)%N.
Proof.
  revert acc. induction k as [|k IH]; intros acc; simpl; [f_equal; lia|].
  rewrite IH. f_equal. rewrite Nat2N.inj_succ, N.pow_succ_r'. lia.
Qed.

Lemma zeros_are_digits k : Forall is_digit (replicate k "0"%char).
Proof. apply Forall_replicate. by eexists. Qed.

(** The digits after the padding of step 10.c. *)
Definition padded (m : list ascii) (f : nat) : list ascii :=
  if decide (length m <= f) then replicate (f + 1 - length m) "0"%char ++ m else m.

Lemma padded_spec m f n :
  dec_val_acc 0 m = Some n ->
  dec_val_acc 0 (padded m f) = Some n /\ Forall is_digit (padded m f) /\
  f < length (padded m f).
Proof.
  intros Hm. pose proof (dec_val_acc_is_digit _ _ _ Hm) as Hd. unfold padded.
  case_decide.
  - rewrite dec_val_acc_app, dec_val_zeros. simpl. rewrite N.mul_0_l. split_and!; [done| |].
    + apply Forall_app. split; [apply zeros_are_digits|done].
    + rewrite length_app, length_replicate. lia.
  - split_and!; try done. lia.
Qed.

Lemma chars_split s f :
  f <= String.length s ->
  chars (String.substring 0 (String.length s - f) s +:+ "." +:+
         String.substring (String.length s - f) f s) =
  take (length (chars s) - f) (chars s) ++ "."%char :: drop (length (chars s) - f) (chars s).
Proof.
  intros Hf. rewrite !list_ascii_app, !list_ascii_substring, drop_0, length_list_ascii. simpl.
  do 2 f_equal. apply take_ge. rewrite length_drop, length_list_ascii. lia.
Qed.

Lemma chars_padded m f :
  chars (if decide (String.length m <= f) then zeros (f + 1 - String.length m) +:+ m else m) =
  padded (chars m) f.
Proof. unfold padded. rewrite length_list_ascii. case_decide; [|done]. by rewrite list_ascii_app, chars_zeros. Qed.

Lemma chars_insert_point m f :
  0 < f ->
  chars (insert_point m f) =
  take (length (padded (chars m) f) - f) (padded (chars m) f) ++
  "."%char :: drop (length (padded (chars m) f) - f) (padded (chars m) f).
Proof.
  intros Hf. unfold insert_point. rewrite decide_False by lia. cbv zeta.
  rewrite chars_split, chars_padded; [done|].
  case_decide; [|lia].
  rewrite <- length_list_ascii, list_ascii_app, chars_zeros, length_app, length_replicate,
    length_list_ascii. lia.
Qed.

(** ** Reading the output back *)

Lemma pow10_pos k : (0 < pow10 k)%Q.
Proof.
  unfold pow10. change 0%Q with (inject_Z 0). rewrite <- Zlt_Qlt.
  apply Z.pow_pos_nonneg; lia.
Qed.

Lemma pow10_nonzero k : ~ (pow10 k == 0)%Q.
Proof. pose proof (pow10_pos k) as Hp. intros Hz. rewrite Hz in Hp. discriminate. Qed.

Lemma inject_pow10 k : inject_Z (Z.of_N (10 ^ N.of_nat k)) = pow10 k.
Proof. unfold pow10. by rewrite N2Z.inj_pow, nat_N_Z. Qed.

Lemma parse_split_value a b n :
  Forall is_digit a -> a <> [] -> b <> [] -> dec_val_acc 0 (a ++ b) = Some n ->
  exists r, parse_unsigned (a ++ "."%char :: b) = Some r /\
            (r == inject_Z (Z.of_N n) / pow10 (length b))%Q.
Proof.
  intros Ha Hna Hnb Hn. unfold parse_unsigned. rewrite split_dot_app_dot by done.
  rewrite decide_False by naive_solver.
  rewrite dec_val_acc_app in Hn.
  destruct (dec_val_acc 0 a) as [va|] eqn:Ea; [|done]. simpl in Hn.
  rewrite dec_val_acc_shift in Hn.
  destruct (dec_val_acc 0 b) as [vb|] eqn:Eb; [|done]. simpl in Hn. injection Hn as <-.
  eexists. split; [reflexivity|].
  rewrite N2Z.inj_add, N2Z.inj_mul, inject_Z_plus, inject_Z_mult, inject_pow10.
  field. apply pow10_nonzero.
Qed.

Lemma parse_fixed_app_digit a rest :
  Forall is_digit a -> a <> [] -> parse_fixed (a ++ rest) = parse_unsigned (a ++ rest).
Proof.
  destruct a as [|c a]; intros Ha Hne; [done|]. simpl.
  apply Forall_cons in Ha as [[d Hd] _]. rewrite decide_False; [done|].
  intros ->. discriminate.
Qed.

(** What [insert_point (digits n) f] reads as. *)
Lemma parse_insert_point n f :
  exists r, parse_fixed (chars (insert_point (digits n) f)) = Some r /\
            (r == inject_Z (Z.of_N n) / pow10 f)%Q.
Proof.
  pose proof (dec_val_digits n) as Hn. pose proof (digits_nonempty n) as Hne.
  pose proof (digits_are_digits n) as Hd.
  destruct (decide (f = 0)) as [->|Hf].
  - unfold insert_point. rewrite decide_True by done.
    rewrite <- (app_nil_r (chars (digits n))), parse_fixed_app_digit, app_nil_r by done.
    unfold parse_unsigned. rewrite split_dot_no_dot, decide_False, Hn by done.
    eexists. split; [reflexivity|]. unfold pow10. change (inject_Z (10 ^ Z.of_nat 0)) with 1%Q. field.
  - rewrite chars_insert_point by lia.
    destruct (padded_spec _ f _ Hn) as (Hp & Hpd & Hlen).
    set (l := padded (chars (digits n)) f) in *.
    rewrite <- (take_drop (length l - f) l) in Hp, Hpd.
    apply Forall_app in Hpd as [Hta Htb].
    assert (Hta' : take (length l - f) l <> []).
    { intros Ht. apply (f_equal length) in Ht. rewrite length_take in Ht. simpl in Ht. lia. }
    assert (Htb' : drop (length l - f) l <> []).
    { intros Ht. apply (f_equal length) in Ht. rewrite length_drop in Ht. simpl in Ht. lia. }
    rewrite parse_fixed_app_digit by done.
    destruct (parse_split_value _ _ _ Hta Hta' Htb' Hp) as (r & Hr & Hrv).
    exists r. split; [done|]. rewrite Hrv, length_drop.
    by replace (length l - (length l - f)) with f by lia.
Qed.

(** ** [toFixed] on non-negative numbers below 10^21 *)

Lemma Qabs_nonneg_eq q : (0 <= q)%Q -> Qabs q = q.
Proof. destruct q as [n d]. unfold Qle, Qabs. simpl. intros H. by rewrite Z.abs_eq by lia. Qed.

Lemma fixed_round_nonneg q f : (0 <= q)%Q -> (0 <= fixed_round q f)%Z.
Proof.
  intros Hq. unfold fixed_round. apply Qfloor_ge_iff.
  pose proof (pow10_pos f) as Hp. unfold pow10 in Hp. change (inject_Z 0) with 0%Q. nra.
Qed.

(** Reading [x.toFixed(f)] back gives [fixed_round x f / 10^f]. *)
Lemma toFixed_parse large_to_string q f :
  (0 <= q)%Q -> (q < inject_Z (10 ^ 21))%Q -> f <= 100 ->
  exists s r,
    toFixed large_to_string (Fin q) (Fin (inject_Z (Z.of_nat f))) = Ok s /\
    parse_fixed (chars s) = Some r /\ (r == inject_Z (fixed_round q f) / pow10 f)%Q.
Proof.
  intros H0 H1 Hf. unfold toFixed.
  cbn [to_integer_or_infinity Qnum Qden inject_Z]. rewrite Z.quot_1_r.
  rewrite decide_False by lia.
  rewrite (proj2 (Qle_bool_iff _ _) H0), Qabs_nonneg_eq by done.
  rewrite (proj2 (Qle_bool_false _ _) H1), Nat2Z.id.
  destruct (parse_insert_point (Z.to_N (fixed_round q f)) f) as (r & Hr & Hrv).
  do 2 eexists. split; [reflexivity|].
  rewrite list_ascii_app. cbn [String.list_ascii_of_string app]. rewrite Hr. split; [done|].
  by rewrite Hrv, Z2N.id by (by apply fixed_round_nonneg).
Qed.

(** The rounded value is within half a unit of the last digit. *)
Lemma fixed_round_error q f :
  (Qabs (inject_Z (fixed_round q f) / pow10 f - q) <= (1 # 2) / pow10 f)%Q.
Proof.
  unfold fixed_round. change (inject_Z (10 ^ Z.of_nat f)) with (pow10 f).
  pose proof (pow10_pos f) as Hp.
  set (n := Qfloor (q * pow10 f + (1 # 2))).
  pose proof (Qfloor_le (q * pow10 f + (1 # 2))) as Hle.
  pose proof (Qlt_floor (q * pow10 f + (1 # 2))) as Hlt.
  fold n in Hle, Hlt. rewrite inject_Z_plus in Hlt. change (inject_Z 1) with 1%Q in Hlt.
  assert (E : (inject_Z n / pow10 f - q == (inject_Z n - q * pow10 f) * / pow10 f)%Q)
    by (field; apply pow10_nonzero).
  rewrite E, Qabs_Qmult, (Qabs_pos (/ pow10 f)) by (apply Qinv_le_0_compat; lra).
  apply Qmult_le_compat_r; [|apply Qinv_le_0_compat; lra].
  apply Qabs_Qle_condition. split; lra.
Qed.

End Decimal.
