(* ===== verification/Utils.v ===== *)
(** * [src/src/lib/utils.ts]

    One module per helper of [utils.ts]:
    - [ToMetric]: [toMetric], its [while (bytes > 1000)] loop as a fuelled
      function and as a step relation, its total correctness on finite
      inputs, its divergence on [Infinity], the unit suffix bounds, and
      the round trip of the printed number (with [Decimal]);
    - [StrokeWidth]: [calcStrokeWidth] and its refinement of the spec's
      step table;
    - [SaturatedPush]: [saturatedPush] on the array's contents, the
      window it keeps and its divergence on a negative limit. *)

From S2P Require Import Prelude JsNumber Decimal.

Module ToMetric.

(** [const units = ["B", "kB", "MB", "GB", "TB", "PB", "EB"]] *)
Definition units : list string := ["B"; "kB"; "MB"; "GB"; "TB"; "PB"; "EB"].

(** [while (bytes > 1000) { bytes /= 1024; unitIndex++ }], with fuel. *)
Fixpoint metric_loop (fuel : nat) (bytes : number) (unitIndex : nat)
    : option (number * nat) :=
  match fuel with
  | O => None
  | S fuel' =>
      if bytes >ⱼ Fin 1000
      then metric_loop fuel' (js_div_pos bytes 1024) (S unitIndex)
      else Some (bytes, unitIndex)
  end.

(** The same loop as a one-step relation on [(bytes, unitIndex)]. *)
Inductive loop_step : number * nat -> number * nat -> Prop :=
| loop_step_div bytes unitIndex :
    (bytes >ⱼ Fin 1000) = true ->
    loop_step (bytes, unitIndex) (js_div_pos bytes 1024, S unitIndex).

(** [units[unitIndex]] is [undefined] past the table, and the string
    concatenation then appends ["undefined"]. *)
Definition unit_suffix (unitIndex : nat) : string :=
  match units !! unitIndex with
  | Some u => u
  | None => "undefined"
  end.

Section WithToString.
Context (large_to_string : Q -> string).

(** [toMetric(bytes, precision = 1)]: [bytes] is [None] for [null],
      [precision] is [None] when the argument is omitted. *)
Definition toMetric_fuel (fuel : nat) (bytes : option number)
      (precision : option number) : option (result string) :=
    let precision := default (Fin 1) precision in
    match bytes with
    | None => Some (Ok "0B")
    | Some b =>
        if negb (js_truthy b) then Some (Ok "0B")
        else match metric_loop fuel b 0 with
             | None => None
             | Some (b', unitIndex) =>
                 Some (s ←? toFixed large_to_string b' precision ;;
                       Ok (s +:+ unit_suffix unitIndex))
             end
    end.

(** Every finite double is below [2^1024 = 1024^102.4], so 103 loop
      iterations (and 104 units of fuel) cover every double input. *)
Definition metric_fuel : nat := 104.

Definition toMetric (bytes : option number) (precision : option number)
      : option (result string) :=
    toMetric_fuel metric_fuel bytes precision.
End WithToString.

(** ** Arithmetic of the loop *)

Definition pow1024 (k : nat) : Q := inject_Z (1024 ^ Z.of_nat k).

Lemma pow1024_S k : (pow1024 (S k) == pow1024 k * 1024)%Q.
Proof.
  unfold pow1024. rewrite Nat2Z.inj_succ, Z.pow_succ_r by lia.
  rewrite inject_Z_mult. apply Qmult_comm.
Qed.

Lemma pow1024_0 : (pow1024 0 == 1)%Q.
Proof. reflexivity. Qed.

Lemma pow1024_pos k : (0 < pow1024 k)%Q.
Proof.
  unfold pow1024. change 0%Q with (inject_Z 0). rewrite <- Zlt_Qlt.
  apply Z.pow_pos_nonneg; lia.
Qed.

Lemma pow1024_mono k k' : k <= k' -> (pow1024 k <= pow1024 k')%Q.
Proof.
  intros H. unfold pow1024. rewrite <- Zle_Qle.
  apply Z.pow_le_mono_r; lia.
Qed.

Lemma metric_loop_index fuel b i b' j :
  metric_loop fuel b i = Some (b', j) -> i <= j.
Proof.
  revert b i. induction fuel as [|fuel IH]; intros b i H; simpl in H; [done|].
  destruct (b >ⱼ Fin 1000); [apply IH in H; lia | by simplify_eq].
Qed.

(** The fuelled loop agrees with the step relation: a state it returns is
    reached by steps and has no further step. *)
Lemma metric_loop_sound fuel b i r :
  metric_loop fuel b i = Some r -> star loop_step (b, i) r /\ irred loop_step r.
Proof.
  revert b i. induction fuel as [|fuel IH]; intros b i H; cbn [metric_loop] in H;
    [done|].
  destruct (b >ⱼ Fin 1000) eqn:E.
  - destruct (IH _ _ H) as [Hs Hi]. split; [|done].
    eapply star_step; [by constructor | done].
  - simplify_eq. split; [constructor|]. intros s Hs. inversion Hs. congruence.
Qed.

Lemma loop_step_det s s1 s2 : loop_step s s1 -> loop_step s s2 -> s1 = s2.
Proof. intros [] Hs. by inversion Hs. Qed.

Lemma div1024_scale v p q :
  (v * p == q / inject_Z 1024)%Q -> (v * (p * 1024) == q)%Q.
Proof. intros H. rewrite Qmult_assoc, H. field. Qed.

(** Partial correctness: what the loop returns is the input scaled down
    by [1024^k], at most 1000, and [k] is the least such exponent (the
    value before the last division exceeded 1000). *)
Lemma metric_loop_correct fuel q i r :
  metric_loop fuel (Fin q) i = Some r ->
  exists k v, r = (Fin v, i + k) /\ (v * pow1024 k == q)%Q /\ (v <= 1000)%Q /\
    (k = 0 \/ (1000 < v * 1024)%Q).
Proof.
  revert q i. induction fuel as [|fuel IH]; intros q i H; cbn [metric_loop] in H;
    [done|].
  jscase; rewrite ?js_div_pos_fin in H.
  - destruct (IH _ _ H) as (k & v & -> & Hv & Hle & Hk).
    exists (S k), v. split; [f_equal; lia|].
    rewrite pow1024_S. split; [by apply div1024_scale|]. split; [done|].
    right. destruct Hk as [->|Hk]; [|done].
    rewrite pow1024_0, Qmult_1_r in Hv. rewrite Hv. field_simplify. lra.
  - simplify_eq. exists 0, q. split; [f_equal; lia|].
    rewrite pow1024_0. split; [apply Qmult_1_r|]. split; [done|]. by left.
Qed.

(** Termination: below [1000 * 1024^n] the loop needs at most [n]
    divisions, so [S n] units of fuel suffice. *)
Lemma metric_loop_enough_fuel n q i :
  (q <= 1000 * pow1024 n)%Q -> exists r, metric_loop (S n) (Fin q) i = Some r.
Proof.
  revert q i. induction n as [|n IH]; intros q i H; cbn [metric_loop].
  - jscase; [|by eexists]. rewrite pow1024_0 in H. lra.
  - jscase; [|by eexists]. rewrite js_div_pos_fin. apply IH.
    rewrite pow1024_S in H. pose proof (pow1024_pos n).
    rewrite Qdiv_1024. nra.
Qed.

Lemma Qmult_le_pow1024 v k : (v <= 1000)%Q -> (v * pow1024 k <= 1000 * pow1024 k)%Q.
Proof. intros H. pose proof (pow1024_pos k). nra. Qed.

Lemma pow1024_scaled_mono k k' : k <= k' -> (1000 * pow1024 k <= 1000 * pow1024 k')%Q.
Proof. intros H. pose proof (pow1024_mono k k' H). lra. Qed.

(** ** Properties of [toMetric] *)

(** C15. [null], [0], [-0] and NaN are falsy and format as ["0B"] for any
    fuel and any precision: [toFixed] is not reached, so even an
    out-of-range precision does not throw. *)
Theorem toMetric_falsy large_to_string fuel bytes precision :
  (forall b, bytes = Some b -> js_truthy b = false) ->
  toMetric_fuel large_to_string fuel bytes precision = Some (Ok "0B").
Proof.
  intros Hb. unfold toMetric_fuel. destruct bytes as [b|]; [|done].
  by rewrite (Hb b eq_refl).
Qed.

Lemma toMetric_falsy_witness :
  toMetric (fun _ => "") (Some NaN) (Some (Fin 101)) = Some (Ok "0B").
Proof. apply toMetric_falsy. by intros b [= <-]. Defined.

(** The loop on a finite non-zero input, and what [toMetric] returns. *)
Lemma toMetric_fin large_to_string q precision :
  (Qabs q < inject_Z (2 ^ 1024))%Q -> ~ (q == 0)%Q ->
  exists k v,
    toMetric large_to_string (Some (Fin q)) precision =
      Some (s ←? toFixed large_to_string (Fin v) (default (Fin 1) precision) ;;
            Ok (s +:+ unit_suffix k)) /\
    (v * pow1024 k == q)%Q /\ (v <= 1000)%Q /\ (k = 0 \/ (1000 < v * 1024)%Q).
Proof.
  intros Hrange Hnz.
  assert (Hq : (q <= 1000 * pow1024 103)%Q).
  { apply Qle_trans with (Qabs q); [apply Qle_Qabs|].
    apply Qlt_le_weak. eapply Qlt_le_trans; [exact Hrange|].
    apply Qle_bool_iff. vm_compute. reflexivity. }
  destruct (metric_loop_enough_fuel 103 q 0 Hq) as [r Hr].
  destruct (metric_loop_correct _ _ _ _ Hr) as (k & v & -> & Hv).
  exists k, v. split; [|done].
  unfold toMetric, toMetric_fuel, metric_fuel.
  rewrite (js_truthy_fin_true _ Hnz). simpl negb. cbv iota. by rewrite Hr.
Qed.

(** C12. On every finite non-zero double, [toMetric] returns: it divides by
    1024 the least number of times [k] that brings the magnitude to at
    most 1000, formats the result with [toFixed(precision)] (default 1)
    and appends the [k]-th unit. *)
Theorem toMetric_spec large_to_string q precision :
  (Qabs q < inject_Z (2 ^ 1024))%Q -> ~ (q == 0)%Q ->
  exists k v,
    toMetric large_to_string (Some (Fin q)) precision =
      Some (s ←? toFixed large_to_string (Fin v) (default (Fin 1) precision) ;;
            Ok (s +:+ unit_suffix k)) /\
    (v * pow1024 k == q)%Q /\ (v <= 1000)%Q /\ (k = 0 \/ (1000 < v * 1024)%Q).
Proof. apply toMetric_fin. Qed.

Lemma toMetric_spec_witness :
  exists k v,
    toMetric (fun _ => "") (Some (Fin 1500)) None =
      Some (s ←? toFixed (fun _ => "") (Fin v) (default (Fin 1) None) ;;
            Ok (s +:+ unit_suffix k)) /\
    (v * pow1024 k == 1500)%Q /\ (v <= 1000)%Q /\ (k = 0 \/ (1000 < v * 1024)%Q).
Proof. apply toMetric_spec; qdecide. Defined.

(** C14. [toMetric(Infinity)] never returns: the loop has an infinite run,
    no final state is reachable, and no amount of fuel suffices. *)
Theorem toMetric_Infinity_diverges large_to_string precision :
  infseq loop_step (PosInf, 0) /\
  (forall s, star loop_step (PosInf, 0) s -> ~ irred loop_step s) /\
  (forall fuel, toMetric_fuel large_to_string fuel (Some PosInf) precision = None).
Proof.
  assert (Hinf : forall i, infseq loop_step (PosInf, i)).
  { intros i. apply (infseq_from_closed _ (fun s => fst s = PosInf)); [done|].
    intros [b j] Hb. simpl in Hb. subst b.
    exists (PosInf, S j). split; [by constructor | done]. }
  split; [apply Hinf|]. split.
  - intros s Hs. eapply infseq_star_not_irred; [apply loop_step_det | apply Hinf | done].
  - intros fuel. unfold toMetric_fuel. simpl negb. cbv iota.
    destruct (metric_loop fuel PosInf 0) as [r|] eqn:E; [|done].
    apply metric_loop_sound in E as [Hs Hirr].
    exfalso. eapply infseq_star_not_irred; [apply loop_step_det | apply Hinf | done..].
Qed.

(** C16. The unit never decreases as the byte count grows. *)
Theorem metric_unit_monotone fx fy x y vx vy jx jy :
  (x <= y)%Q ->
  metric_loop fx (Fin x) 0 = Some (vx, jx) ->
  metric_loop fy (Fin y) 0 = Some (vy, jy) -> jx <= jy.
Proof.
  generalize 0 as i. revert fy x y. induction fx as [|fx IH]; intros fy x y i Hxy Hx Hy;
    cbn [metric_loop] in Hx; [done|].
  jscase_on (Fin x >ⱼ Fin 1000); rewrite ?js_div_pos_fin in Hx.
  - destruct fy as [|fy]; cbn [metric_loop] in Hy; [done|].
    jscase_on (Fin y >ⱼ Fin 1000); [|lra]. rewrite js_div_pos_fin in Hy.
    eapply (IH fy); [|done..]. rewrite !Qdiv_1024. lra.
  - simplify_eq. by apply metric_loop_index in Hy.
Qed.

Lemma metric_unit_monotone_witness :
  metric_loop 104 (Fin 1500) 0 = Some (Fin (1500 / inject_Z 1024), 1) /\
  metric_loop 104 (Fin 2000000) 0 =
    Some (Fin (2000000 / inject_Z 1024 / inject_Z 1024), 2) /\ 1 <= 2.
Proof.
  split; [reflexivity|]. split; [reflexivity|].
  apply (metric_unit_monotone 104 104 1500 2000000
           (Fin (1500 / inject_Z 1024)) (Fin (2000000 / inject_Z 1024 / inject_Z 1024)));
    [qdecide | reflexivity | reflexivity].
Defined.

(** C17. The unit index stays inside the table exactly when the input is
    at most [1000 * 1024^6] (about 1.15e21); above, [units[unitIndex]] is
    [undefined] and the suffix is the string ["undefined"]. *)
Theorem toMetric_unit_bounds fuel q v k :
  metric_loop fuel (Fin q) 0 = Some (v, k) ->
  (is_Some (units !! k) <-> (q <= 1000 * pow1024 6)%Q) /\
  (unit_suffix k = "undefined" <-> (1000 * pow1024 6 < q)%Q).
Proof.
  intros Hl. destruct (metric_loop_correct _ _ _ _ Hl) as (k' & v' & Heq & Hv & Hle & Hk).
  simplify_eq. simpl.
  assert (Hiff : k' < 7 <-> (q <= 1000 * pow1024 6)%Q).
  { split; intros H.
    - rewrite <- Hv. eapply Qle_trans; [by apply Qmult_le_pow1024|].
      apply pow1024_scaled_mono. lia.
    - destruct (decide (k' < 7)) as [|Hge]; [done|]. exfalso.
      destruct k' as [|k'']; [lia|]. destruct Hk as [Hk|Hk]; [lia|].
      rewrite pow1024_S in Hv. pose proof (pow1024_pos k'').
      assert (6 <= k'') as Hk6%pow1024_scaled_mono by lia. nra. }
  rewrite lookup_lt_is_Some. simpl. split; [done|].
  unfold unit_suffix. destruct (units !! k') as [u|] eqn:E.
  - apply lookup_lt_Some in E as Hlt. simpl in Hlt.
    split; [|intros; exfalso; apply Qlt_not_le in H; apply H, Hiff; lia].
    intros ->. exfalso. repeat (destruct k' as [|k']; simplify_eq/=).
  - apply lookup_ge_None in E. simpl in E.
    split; [intros _ | done]. apply Qnot_le_lt. intros H. apply Hiff in H. lia.
Qed.

(** 2e21 bytes run past the table: the suffix is ["undefined"]. *)
Lemma toMetric_unit_bounds_witness :
  let q := inject_Z (2 * 10 ^ 21) in
  metric_loop 104 (Fin q) 0 = Some (Nat.iter 7 (fun b => js_div_pos b 1024) (Fin q), 7) /\
  (unit_suffix 7 = "undefined" <-> (1000 * pow1024 6 < q)%Q).
Proof.
  intros q. split; [reflexivity|].
  exact (proj2 (toMetric_unit_bounds 104 q _ 7 eq_refl)).
Defined.

(** C13. What [toMetric] prints reads back to the scaled input, rounded:
    on a positive finite double and an integer precision [f] from 0 to
    100, the output is a fixed-point decimal with exactly [f] digits after
    the point followed by the unit, and the decimal is within half a unit
    of its last digit of [bytes / 1024^k], [k] being the unit's index. *)
Theorem toMetric_roundtrip large_to_string q f :
  (0 < q)%Q -> (q < inject_Z (2 ^ 1024))%Q -> f <= 100 ->
  exists k s r,
    toMetric large_to_string (Some (Fin q)) (Some (Fin (inject_Z (Z.of_nat f)))) =
      Some (Ok (s +:+ unit_suffix k)) /\
    Decimal.parse_fixed (Decimal.chars s) = Some r /\
    (Qabs (r - q / pow1024 k) <= (1 # 2) / Decimal.pow10 f)%Q.
Proof.
  intros Hpos Hlt Hf.
  destruct (toMetric_fin large_to_string q (Some (Fin (inject_Z (Z.of_nat f)))))
    as (k & v & Ht & Hv & Hv1000 & _).
  { by rewrite Qabs_pos by lra. }
  { intros Hz. rewrite Hz in Hpos. discriminate. }
  pose proof (pow1024_pos k) as Hp.
  assert (Hvq : (q / pow1024 k == v)%Q) by (rewrite <- Hv; field; lra).
  assert (Hv0 : (0 <= v)%Q).
  { apply (Qmult_le_r _ _ (pow1024 k)); [lra|]. rewrite Hv. lra. }
  destruct (Decimal.toFixed_parse large_to_string v f Hv0) as (s & r & Hs & Hr & Hrv);
    [eapply Qle_lt_trans; [exact Hv1000|]; qdecide | done |].
  exists k, s, r. rewrite Ht. cbn [default id]. rewrite Hs. split_and!; [done|done|].
  rewrite Hvq, Hrv. apply Decimal.fixed_round_error.
Qed.

Lemma toMetric_roundtrip_witness :
  exists k s r,
    toMetric (fun _ => "") (Some (Fin 1500)) (Some (Fin (inject_Z (Z.of_nat 2)))) =
      Some (Ok (s +:+ unit_suffix k)) /\
    Decimal.parse_fixed (Decimal.chars s) = Some r /\
    (Qabs (r - 1500 / pow1024 k) <= (1 # 2) / Decimal.pow10 2)%Q.
Proof. apply toMetric_roundtrip; [qdecide | qdecide | lia]. Defined.

(** [toMetric(1500, 2)] is ["1.46kB"]. *)
Example toMetric_1500_2 :
  toMetric (fun _ => "") (Some (Fin 1500)) (Some (Fin 2)) = Some (Ok "1.46kB").
Proof. vm_compute. reflexivity. Qed.

End ToMetric.

Module StrokeWidth.

(** [calcStrokeWidth(numArcs)]: the chain of [===] and [<] tests. *)
Definition calcStrokeWidth (numArcs : number) : Z :=
  if numArcs ===ⱼ Fin 1 then 12
  else if numArcs <ⱼ Fin 4 then 10
  else if numArcs ===ⱼ Fin 4 then 8
  else if numArcs ===ⱼ Fin 5 then 6
  else if numArcs ===ⱼ Fin 6 then 5
  else if numArcs <ⱼ Fin 9 then 4
  else 3.

(** The step table of the spec (section 4.3), for a positive count:
    1->12, 2-3->10, 4->8, 5->6, 6->5, 7-8->4, 9 and more ->3. *)
Definition stroke_table (n : nat) : Z :=
  match n with
  | 1 => 12
  | 2 | 3 => 10
  | 4 => 8
  | 5 => 6
  | 6 => 5
  | 7 | 8 => 4
  | _ => 3
  end.

Lemma js_strict_eq_nat n z :
  (num_of_nat n ===ⱼ Fin (Qmake z 1)) = bool_decide (Z.of_nat n = z).
Proof.
  unfold num_of_nat, js_strict_eq. qcase; symmetry;
    [apply bool_decide_eq_true | apply bool_decide_eq_false];
    unfold Qeq in *; simpl in *; lia.
Qed.

Lemma js_lt_nat n z :
  (num_of_nat n <ⱼ Fin (Qmake z 1)) = bool_decide (Z.of_nat n < z)%Z.
Proof.
  unfold num_of_nat. jscase; symmetry;
    [apply bool_decide_eq_true | apply bool_decide_eq_false];
    unfold Qlt, Qle in *; simpl in *; lia.
Qed.

Lemma stroke_table_S n : 1 <= n -> (stroke_table (S n) <= stroke_table n)%Z.
Proof.
  intros Hn. do 9 (destruct n as [|n]; [simpl; lia|]). simpl. lia.
Qed.

Lemma calcStrokeWidth_nat n :
  1 <= n -> calcStrokeWidth (num_of_nat n) = stroke_table n.
Proof.
  intros Hn. unfold calcStrokeWidth. rewrite !js_strict_eq_nat, !js_lt_nat.
  do 9 (destruct n as [|n]; [first [lia | reflexivity]|]).
  rewrite !bool_decide_false by lia. reflexivity.
Qed.

(** C22. On a positive integer count [calcStrokeWidth] is exactly the
    spec's table. *)
Theorem calcStrokeWidth_table n :
  1 <= n -> calcStrokeWidth (num_of_nat n) = stroke_table n.
Proof. apply calcStrokeWidth_nat. Qed.

Lemma calcStrokeWidth_table_witness :
  1 <= 9 /\ calcStrokeWidth (num_of_nat 9) = stroke_table 9.
Proof. split; [lia | apply calcStrokeWidth_table; lia]. Defined.

(** C23. More rings never get a thicker stroke. *)
Theorem calcStrokeWidth_nonincreasing n m :
  1 <= n -> n <= m ->
  (calcStrokeWidth (num_of_nat m) <= calcStrokeWidth (num_of_nat n))%Z.
Proof.
  intros Hn Hm. rewrite !calcStrokeWidth_nat by lia.
  induction Hm as [|m Hm IH]; [lia|].
  pose proof (stroke_table_S m ltac:(lia)). lia.
Qed.

Lemma calcStrokeWidth_nonincreasing_witness :
  (calcStrokeWidth (num_of_nat 12) <= calcStrokeWidth (num_of_nat 1))%Z.
Proof. apply calcStrokeWidth_nonincreasing; lia. Defined.

End StrokeWidth.

Module SaturatedPush.
Section WithElem.
Context {A : Type}.
Implicit Types (arr : list A) (element : A).

(** [arr.shift()]: drops the first element; on an empty array it
    changes nothing. *)
Definition array_shift arr : list A := tail arr.

(** [arr.push(element)] *)
Definition array_push arr element : list A := arr ++ [element].

(** [while (arr.length > limit) { arr.shift() }], with fuel. *)
Fixpoint shift_loop (fuel : nat) arr (limit : number) : option (list A) :=
  match fuel with
  | O => None
  | S fuel' =>
      if num_of_nat (length arr) >ⱼ limit
      then shift_loop fuel' (array_shift arr) limit
      else Some arr
  end.

Inductive shift_step (limit : number) : list A -> list A -> Prop :=
  | shift_step_intro arr :
    (num_of_nat (length arr) >ⱼ limit) = true ->
    shift_step limit arr (array_shift arr).

(** [saturatedPush(arr, element, limit)]: the contents of [arr] after
    the call.  A terminating run shifts at most [length arr + 1] times,
    so [length arr + 2] units of fuel decide termination. *)
Definition saturatedPush_fuel (fuel : nat) arr element (limit : number)
    : option (list A) :=
  shift_loop fuel (array_push arr element) limit.

Definition saturatedPush arr element (limit : number) : option (list A) :=
  saturatedPush_fuel (S (S (length arr))) arr element limit.

(** Repeated pushes, as the dashboard feeds a sample window. *)
Fixpoint push_all arr (elements : list A) (limit : number) : option (list A) :=
  match elements with
  | [] => Some arr
  | e :: es =>
      match saturatedPush arr e limit with
      | Some arr' => push_all arr' es limit
      | None => None
      end
  end.

Lemma shift_loop_window fuel arr q :
  (0 <= q)%Q -> length arr < fuel ->
  shift_loop fuel arr (Fin q) = Some (lastn (Z.to_nat (Qfloor q)) arr).
Proof.
  intros Hq. revert arr. induction fuel as [|fuel IH]; intros arr Hlen; [lia|].
  cbn [shift_loop]. unfold num_of_nat. jscase.
  - apply nat_gt_Qfloor in E; [|done]. rewrite IH.
    + unfold array_shift. by rewrite lastn_tail.
    + unfold array_shift. destruct arr; simpl in *; lia.
  - f_equal. symmetry. apply lastn_all.
    destruct (decide (Z.to_nat (Qfloor q) < length arr)) as [Hlt|]; [|lia].
    apply nat_gt_Qfloor in Hlt; [lra|done].
Qed.

(** A negative limit (or [-Infinity]) is exceeded by every length. *)
Lemma length_gt_negative (limit : number) (n : nat) :
  (limit <ⱼ Fin 0) = true -> (num_of_nat n >ⱼ limit) = true.
Proof.
  destruct limit as [q| | |]; try done. unfold num_of_nat.
  rewrite js_lt_fin, js_gt_fin. intros Hq.
  pose proof (inject_Z_nat_nonneg n). lra.
Qed.

(** Neither [+Infinity] nor NaN is ever exceeded by a length. *)
Lemma length_gt_inf_nan (limit : number) (n : nat) :
  limit = PosInf \/ limit = NaN -> (num_of_nat n >ⱼ limit) = false.
Proof. by intros [-> | ->]. Qed.

Lemma shift_loop_negative fuel arr limit :
  (limit <ⱼ Fin 0) = true -> shift_loop fuel arr limit = None.
Proof.
  intros Hl. revert arr. induction fuel as [|fuel IH]; intros arr; [done|].
  cbn [shift_loop]. by rewrite length_gt_negative.
Qed.

(** C19. With a non-negative limit [saturatedPush] returns, and the array
    then holds the last [floor limit] elements of [arr ++ [element]], in
    their original order. *)
Theorem saturatedPush_window arr element q :
  (0 <= q)%Q ->
  saturatedPush arr element (Fin q) =
    Some (lastn (Z.to_nat (Qfloor q)) (arr ++ [element])).
Proof.
  intros Hq. unfold saturatedPush, saturatedPush_fuel, array_push.
  apply shift_loop_window; [done|]. rewrite length_app. simpl. lia.
Qed.

(** C18. Pushing any sequence of samples into a window that is within an
    integer limit [k] keeps it within [k], holding the [k] most recent
    samples in the order they were pushed. *)
Theorem push_all_window arr es (k : nat) :
  length arr <= k ->
  exists w, push_all arr es (num_of_nat k) = Some w /\
    w = lastn k (arr ++ es) /\ length w <= k.
Proof.
  revert arr. induction es as [|e es IH]; intros arr Hlen; simpl.
  - exists arr. rewrite app_nil_r, lastn_all by lia. done.
  - unfold saturatedPush, saturatedPush_fuel, array_push, num_of_nat at 1.
    rewrite shift_loop_window by (auto with toerings || (rewrite length_app; simpl; lia)).
    rewrite Qfloor_Z, Nat2Z.id.
    destruct (IH (lastn k (arr ++ [e]))) as (w & Hw & -> & Hl);
      [rewrite length_lastn; lia|].
    exists (lastn k (lastn k (arr ++ [e]) ++ es)). rewrite Hw.
    split; [done|]. split; [|done]. by rewrite lastn_app_lastn, <- app_assoc.
Qed.

(** C20. With a negative limit (or [-Infinity]) [saturatedPush] never
    returns: [0 > limit] holds for the emptied array, and [shift()] on an
    empty array leaves it empty. *)
Theorem saturatedPush_negative_limit_diverges arr element limit :
  (limit <ⱼ Fin 0) = true ->
  infseq (shift_step limit) (array_push arr element) /\
  forall fuel, saturatedPush_fuel fuel arr element limit = None.
Proof.
  intros Hl. split.
  - apply (infseq_from_closed _ (fun _ => True)); [done|].
    intros a _. exists (array_shift a). split; [|done].
    constructor. by apply length_gt_negative.
  - intros fuel. by apply shift_loop_negative.
Qed.

(** C21. With a NaN limit [arr.length > NaN] is false: nothing is ever
    evicted and the window grows without bound. *)
Theorem saturatedPush_NaN arr element :
  saturatedPush arr element NaN = Some (arr ++ [element]).
Proof.
  unfold saturatedPush, saturatedPush_fuel. cbn [shift_loop].
  by rewrite length_gt_inf_nan by auto.
Qed.

End WithElem.

Lemma saturatedPush_window_witness :
  saturatedPush [1; 2; 3] 4 (Fin 3) = Some (lastn 3 [1; 2; 3; 4]).
Proof. apply (saturatedPush_window [1; 2; 3] 4 3). qdecide. Defined.

Lemma push_all_window_witness :
  exists w, push_all [] [1; 2; 3; 4; 5] (num_of_nat 3) = Some w /\
    w = lastn 3 ([] ++ [1; 2; 3; 4; 5]) /\ length w <= 3.
Proof. apply push_all_window. simpl. lia. Defined.

Lemma saturatedPush_negative_limit_diverges_witness :
  infseq (shift_step (Fin (-1))) (array_push [1; 2] 3) /\
  forall fuel, saturatedPush_fuel fuel [1; 2] 3 (Fin (-1)) = None.
Proof. apply saturatedPush_negative_limit_diverges. reflexivity. Defined.

End SaturatedPush.
