(* ===== verification/Sleep.v ===== *)
(** * [sleep] (src/src/lib/utils.ts, lines 36-38) on the browser event loop

    [sleep(ms)] is [new Promise(resolve => setTimeout(resolve, ms))]: the
    promise executor runs at once and registers a timer; the caller's
    [await] suspends it until the timer's task resolves the promise and
    the reaction job resumes it.

    The event loop is modelled at that level:
    - a caller is a [prog]: observable effects ([PLog]), [await sleep(ms)]
      followed by the rest ([PSleep]), and a call of an async function
      that is not awaited ([PSpawn]: the callee runs up to its first
      [await], then the caller goes on);
    - [exec] runs synchronous code to its end; [sleep] registers the
      timer, whose callback is the awaiting continuation (each sleep
      promise has exactly one reaction, the caller's [await]);
    - [loop_step] is one step of the loop between tasks: run the oldest
      microtask, or, when there is none, run the timer task due first,
      whose [resolve] queues the continuation as a microtask, with the
      clock moved to the timer's deadline.
    The continuation runs at the nesting level of the timer task that woke
    it: HTML performs a microtask checkpoint when the timer's callback
    returns ("clean up after running script"), inside that task, so the
    task's timer nesting level is still in force when the [await]'s
    reaction job runs, and a [setTimeout] it makes nests one deeper.
    The claims show that the caller's own code goes on synchronously while
    the continuation waits in a timer ([sleep_never_synchronous]); that the
    registered delay is the 32-bit conversion of [ms] with HTML's clamp
    ([sleep_registers_timer]); that the continuation never observes
    anything before that delay has passed, whatever else the page runs
    ([sleep_waits_at_least], by the invariant [sleep_wait_inv] of the step
    relation [lstep]); and that on an idle loop it resumes exactly then
    ([sleep_resumes_after_timeout]).
    The delay follows the platform: [setTimeout]'s [long timeout] goes
    through WebIDL's ConvertToInt (truncation, then wrap-around modulo
    2^32 into a signed 32-bit integer; NaN and the infinities become 0),
    then HTML's timer initialisation steps set a negative timeout to 0 and
    raise one below 4 to 4 when the timer nesting level exceeds 5. *)

From S2P Require Import Prelude JsNumber.

Module Sleep.

(** ** The delay *)

(** WebIDL ConvertToInt for [long] (32 bits, signed, no [EnforceRange]). *)
Definition to_long (n : number) : Z :=
  match n with
  | Fin q =>
      let x := (Z.quot (Qnum q) (Zpos (Qden q)) mod 2 ^ 32)%Z in
      if (2 ^ 31 <=? x)%Z then (x - 2 ^ 32)%Z else x
  | _ => 0%Z
  end.

(** HTML timer initialisation steps 10-11, at timer nesting level
    [nesting]. *)
Definition timer_timeout (nesting : nat) (ms : number) : Z :=
  let t := Z.max 0 (to_long ms) in
  if (5 <? nesting) && (t <? 4)%Z then 4%Z else t.

(** ** Programs and the loop state *)

Inductive prog :=
| PDone
| PLog (n : nat) (k : prog)
| PSleep (ms : number) (k : prog)
| PSpawn (callee : prog) (k : prog).

(** A pending timer: its deadline, the nesting level its task runs at and
    the continuation its [resolve] wakes. *)
Record timer := mk_timer {
  t_deadline : Z;
  t_level : nat;
  t_cont : prog;
}.

(** Between or during tasks: the clock, the timer nesting level of the
    running task (0 outside timer tasks), the pending timers in
    registration order, the microtask queue and what has been observed,
    with the time it was observed at. *)
Record loop_state := mk_state {
  now : Z;
  nesting : nat;
  timers : list timer;
  microtasks : list prog;
  log : list (Z * nat);
}.

Definition add_log (n : nat) (st : loop_state) : loop_state :=
  mk_state (now st) (nesting st) (timers st) (microtasks st) (log st ++ [(now st, n)]).

(** [sleep(ms)] awaited with continuation [k]: [setTimeout(resolve, ms)]
    registers a timer whose task runs at nesting level one more than the
    current one. *)
Definition sleep (ms : number) (k : prog) (st : loop_state) : loop_state :=
  let t := timer_timeout (nesting st) ms in
  mk_state (now st) (nesting st)
    (timers st ++ [mk_timer (now st + t) (S (nesting st)) k])
    (microtasks st) (log st).

(** Synchronous execution up to the end of the current job. *)
Fixpoint exec (p : prog) (st : loop_state) : loop_state :=
  match p with
  | PDone => st
  | PLog n k => exec k (add_log n st)
  | PSleep ms k => sleep ms k st
  | PSpawn callee k => exec k (exec callee st)
  end.

(** The timer due first: least deadline, the earliest registered among
    equal deadlines. *)
Fixpoint pick_timer (ts : list timer) : option (timer * list timer) :=
  match ts with
  | [] => None
  | t :: ts' =>
      match pick_timer ts' with
      | Some (t', rest) =>
          if (t_deadline t' <? t_deadline t)%Z then Some (t', t :: rest) else Some (t, ts')
      | None => Some (t, [])
      end
  end.

(** One step of the event loop. *)
Definition loop_step (st : loop_state) : option loop_state :=
  match microtasks st with
  | k :: ks => Some (exec k (mk_state (now st) (nesting st) (timers st) ks (log st)))
  | [] =>
      match pick_timer (timers st) with
      | Some (t, ts) =>
          Some (mk_state (Z.max (now st) (t_deadline t)) (t_level t) ts [t_cont t] (log st))
      | None => None
      end
  end.

Definition lstep (st st' : loop_state) : Prop := loop_step st = Some st'.

Fixpoint run_loop (fuel : nat) (st : loop_state) : loop_state :=
  match fuel with
  | 0 => st
  | S fuel => match loop_step st with Some st' => run_loop fuel st' | None => st end
  end.

(** The page's initial script [main] at time [t0]. *)
Definition start (t0 : Z) (main : prog) : loop_state := exec main (mk_state t0 0 [] [] []).

(** ** Reference definitions *)

(** What a program observes before its first [await] returns control. *)
Fixpoint sync_logs (p : prog) : list nat :=
  match p with
  | PDone => []
  | PLog n k => n :: sync_logs k
  | PSleep _ _ => []
  | PSpawn callee k => sync_logs callee ++ sync_logs k
  end.

(** Every label a program can log, on any path, before or after its
    awaits. *)
Fixpoint marks (p : prog) : list nat :=
  match p with
  | PDone => []
  | PLog n k => n :: marks k
  | PSleep _ k => marks k
  | PSpawn callee k => marks callee ++ marks k
  end.

(** ** The delay *)

Lemma to_long_range n : (- 2 ^ 31 <= to_long n < 2 ^ 31)%Z.
Proof.
  unfold to_long. destruct n as [q| | |]; cbv zeta; [|lia..].
  set (x := (Z.quot (Qnum q) (Zpos (Qden q)) mod 2 ^ 32)%Z).
  assert (0 <= x < 2 ^ 32)%Z by (apply Z.mod_pos_bound; lia).
  destruct (Z.leb_spec (2 ^ 31) x); lia.
Qed.

Lemma timer_timeout_range n ms : (0 <= timer_timeout n ms < 2 ^ 31)%Z.
Proof.
  pose proof (to_long_range ms). unfold timer_timeout.
  destruct (_ && _); lia.
Qed.

(** The truncation of a non-negative rational is its floor. *)
Lemma quot_Qfloor q : (0 <= q)%Q -> Z.quot (Qnum q) (Zpos (Qden q)) = Qfloor q.
Proof.
  intros Hq. destruct q as [num den]. unfold Qle in Hq. simpl in *.
  apply Z.quot_div_nonneg; lia.
Qed.

(** Below 2^31 the conversion keeps the integer part; from 2^31 to 2^32
    it wraps to a negative number. *)
Lemma to_long_Fin q :
  (0 <= q)%Q -> (q < inject_Z (2 ^ 32))%Q ->
  to_long (Fin q) = if (2 ^ 31 <=? Qfloor q)%Z then (Qfloor q - 2 ^ 32)%Z else Qfloor q.
Proof.
  intros H0 H1. unfold to_long. cbv zeta. rewrite quot_Qfloor by done.
  apply Qfloor_lt_iff in H1. apply (Qfloor_ge_iff q 0) in H0.
  by rewrite Z.mod_small by lia.
Qed.

(** From -2^31 to 0 the conversion truncates towards 0 and stays
    non-positive. *)
Lemma to_long_neg q :
  (- inject_Z (2 ^ 31) <= q)%Q -> (q < 0)%Q -> (- 2 ^ 31 <= to_long (Fin q) <= 0)%Z.
Proof.
  intros H0 H1. destruct q as [num den]. unfold Qle, Qlt in *. simpl in *.
  unfold to_long. cbv zeta. simpl.
  assert (Hq : (- 2 ^ 31 <= Z.quot num (Zpos den) <= 0)%Z).
  { rewrite <- (Z.opp_involutive num), Z.quot_opp_l, Z.quot_div_nonneg by lia.
    split; [|apply Z.opp_nonpos_nonneg, Z.div_pos; lia].
    apply Z.opp_le_mono. rewrite !Z.opp_involutive.
    apply Z.div_le_upper_bound; lia. }
  destruct (Z.eq_dec (Z.quot num (Zpos den)) 0) as [->|Hne]; [done|].
  rewrite <- (Z.mod_unique (Z.quot num (Zpos den)) (2 ^ 32) (-1) (Z.quot num (Zpos den) + 2 ^ 32))
    by lia.
  destruct (Z.leb_spec (2 ^ 31) (Z.quot num (Zpos den) + 2 ^ 32)); lia.
Qed.

(** The delay HTML settles on, by range of the argument. *)
Lemma timer_timeout_cases n ms :
  (0 <= timer_timeout n ms < 2 ^ 31)%Z /\
  (forall q, ms = Fin q -> (0 <= q)%Q -> (q < inject_Z (2 ^ 31))%Q -> (n <= 5 \/ (4 <= q)%Q) ->
     timer_timeout n ms = Qfloor q) /\
  (forall q, ms = Fin q -> (inject_Z (2 ^ 31) <= q)%Q -> (q < inject_Z (2 ^ 32))%Q ->
     (timer_timeout n ms <= 4)%Z) /\
  ((forall q, ms <> Fin q) \/ (exists q, ms = Fin q /\ (- inject_Z (2 ^ 31) <= q)%Q /\ (q < 0)%Q) ->
     timer_timeout n ms = if 5 <? n then 4%Z else 0%Z).
Proof.
  split; [apply timer_timeout_range|]. split_and!.
  - intros q -> H0 H1 Hc. unfold timer_timeout.
    rewrite to_long_Fin by first [done | eapply Qlt_trans; [exact H1 | rewrite <- Zlt_Qlt; lia]].
    pose proof (proj2 (Qfloor_lt_iff q _) H1). pose proof (proj2 (Qfloor_ge_iff q 0) H0).
    destruct Hc as [Hc|Hc%Qfloor_ge_iff].
    + destruct (Nat.ltb_spec 5 n); [lia|]. destruct (Z.leb_spec (2 ^ 31) (Qfloor q)); simpl; lia.
    + destruct (Z.leb_spec (2 ^ 31) (Qfloor q)); [lia|].
      destruct (Z.ltb_spec (Z.max 0 (Qfloor q)) 4); [lia|]. rewrite andb_false_r. lia.
  - intros q -> H0 H1. unfold timer_timeout.
    assert (Hq : (0 <= q)%Q) by (eapply Qle_trans; [|exact H0]; change 0%Q with (inject_Z 0); rewrite <- Zle_Qle; lia).
    rewrite to_long_Fin by done.
    pose proof (proj2 (Qfloor_lt_iff q _) H1). pose proof (proj2 (Qfloor_ge_iff q _) H0).
    destruct (Z.leb_spec (2 ^ 31) (Qfloor q)); [|lia].
    destruct (_ && _); lia.
  - intros Hms. unfold timer_timeout.
    assert (Hl : (to_long ms <= 0)%Z).
    { destruct Hms as [Hnf|(q & -> & H0 & H1)]; [|by apply to_long_neg].
      destruct ms as [q| | |]; [by destruct (Hnf q)|done..]. }
    rewrite Z.max_l by done. by destruct (Nat.ltb_spec 5 n).
Qed.

(** ** Synchronous execution *)

Lemma exec_frame p st :
  now (exec p st) = now st /\ nesting (exec p st) = nesting st /\
  microtasks (exec p st) = microtasks st /\
  log (exec p st) = log st ++ map (pair (now st)) (sync_logs p) /\
  timers st `prefix_of` timers (exec p st).
Proof.
  revert st. induction p as [|n k IH|ms k|c IHc k IHk]; intros st; simpl.
  - by rewrite app_nil_r.
  - destruct (IH (add_log n st)) as (-> & -> & -> & -> & Hp). simpl.
    by rewrite <- app_assoc.
  - rewrite app_nil_r. split_and!; try done. by eexists.
  - destruct (IHc st) as (Hn & Hl & Hm & Hg & Hp).
    destruct (IHk (exec c st)) as (Hn' & Hl' & Hm' & Hg' & Hp').
    rewrite Hn', Hl', Hm', Hg', Hg, Hn, Hl, Hm, map_app, app_assoc.
    split_and!; try done. by etrans.
Qed.

(** ** The loop *)

Lemma pick_timer_None ts : pick_timer ts = None -> ts = [].
Proof.
  destruct ts as [|t ts]; simpl; [done|].
  destruct (pick_timer ts) as [[??]|]; [case_match|]; done.
Qed.

(** [pick_timer] takes out a timer due no later than all the others. *)
Lemma pick_timer_Some ts t rest :
  pick_timer ts = Some (t, rest) ->
  t :: rest ≡ₚ ts /\ Forall (fun t' => (t_deadline t <= t_deadline t')%Z) rest.
Proof.
  revert t rest. induction ts as [|t0 ts IH]; intros t rest; simpl; [done|].
  destruct (pick_timer ts) as [[t' rest']|] eqn:E.
  - destruct (IH _ _ eq_refl) as [Hp Hf].
    destruct (Z.ltb_spec (t_deadline t') (t_deadline t0)); intros [= <- <-].
    + split; [rewrite <- Hp; constructor|].
      constructor; [lia|done].
    + split; [done|]. rewrite <- Hp. constructor; [lia|].
      eapply Forall_impl; [exact Hf|]. simpl. lia.
  - apply pick_timer_None in E as ->. intros [= <- <-]. done.
Qed.

(** ** Waiting

    A continuation waiting for a [sleep] started at [t0] with delay [D]:
    every label [n] it may log is logged at [D] or later.  [sleep_wait_inv]
    is the invariant: logged [n]s are at [D] or later, a microtask that may
    log [n] is run at [D] or later, and a timer whose continuation may log
    [n] is due at [D] or later. *)

Section Waiting.
Variable D : Z.
Variable n : nat.

Definition sleep_wait_inv (st : loop_state) : Prop :=
  (forall t, (t, n) ∈ log st -> (D <= t)%Z) /\
  (forall p, p ∈ microtasks st -> n ∈ marks p -> (D <= now st)%Z) /\
  (forall tm, tm ∈ timers st -> n ∈ marks (t_cont tm) -> (D <= t_deadline tm)%Z).

(** Running [p] keeps the invariant if [p] may log [n] only once the
    clock is at [D]. *)
Lemma exec_wait_inv p st :
  sleep_wait_inv st -> (n ∈ marks p -> (D <= now st)%Z) -> sleep_wait_inv (exec p st).
Proof.
  revert st. induction p as [|m k IH|ms k|c IHc k IHk]; intros st (Hl & Hm & Ht) Hp; simpl in *.
  - by split_and!.
  - apply IH; [|intros; apply Hp; set_solver].
    unfold add_log; simpl. split_and!; [|done|done].
    intros t [Ht'|[= -> ->]%list_elem_of_singleton]%elem_of_app; [by apply Hl|].
    apply Hp. set_solver.
  - pose proof (timer_timeout_range (nesting st) ms).
    unfold sleep; split_and!; simpl; [done|done|].
    intros tm [Htm|Htm%list_elem_of_singleton]%elem_of_app Hk; [by apply Ht|].
    subst tm. simpl in *. specialize (Hp Hk). lia.
  - pose proof (proj1 (exec_frame c st)) as Hnow.
    apply IHk; [apply IHc; [by split_and! | intros; apply Hp; set_solver]|].
    rewrite Hnow. intros; apply Hp; set_solver.
Qed.

Lemma loop_step_wait_inv st st' : sleep_wait_inv st -> lstep st st' -> sleep_wait_inv st'.
Proof.
  unfold lstep, loop_step. intros (Hl & Hm & Ht) Hs.
  destruct (microtasks st) as [|k ks] eqn:Emt.
  - destruct (pick_timer (timers st)) as [[tm ts]|] eqn:E; [|done].
    injection Hs as <-. apply pick_timer_Some in E as [Hp _].
    split_and!; simpl; [done| |].
    + intros p Hp'%list_elem_of_singleton Hk. subst p.
      assert (D <= t_deadline tm)%Z by (apply Ht; [rewrite <- Hp; left|]; done). lia.
    + intros tm' Htm'. apply Ht. rewrite <- Hp. by right.
  - injection Hs as <-. apply exec_wait_inv; [split_and!; simpl|].
    + done.
    + intros p Hp. apply Hm. rewrite ?Emt. by right.
    + done.
    + apply Hm. rewrite ?Emt. left.
Qed.

End Waiting.

(** ** Claims *)

(** C25. [await sleep(ms)] never resumes synchronously: when a caller
    starts an async function that awaits [sleep(ms)] and then goes on with
    [rest], the current task observes exactly what [rest] observes, none of
    the continuation [k], which waits in a timer due [timer_timeout] after
    now, whatever [ms] is (0 included). *)
Theorem sleep_never_synchronous ms k rest st :
  log (exec (PSpawn (PSleep ms k) rest) st) = log st ++ map (pair (now st)) (sync_logs rest) /\
  mk_timer (now st + timer_timeout (nesting st) ms) (S (nesting st)) k
    ∈ timers (exec (PSpawn (PSleep ms k) rest) st).
Proof.
  simpl. destruct (exec_frame rest (sleep ms k st)) as (Hn & _ & _ & Hl & [suf Hp]).
  rewrite Hl, Hp. simpl. split; [done|].
  apply elem_of_app. left. apply elem_of_app. right. by left.
Qed.

(** C26. On an idle event loop [await sleep(ms)] resumes: after the timer
    task and its microtask, the continuation has run, with the clock
    [timer_timeout] later than when it slept and at the next timer nesting
    level. *)
Theorem sleep_resumes_after_timeout ms k st :
  timers st = [] -> microtasks st = [] ->
  run_loop 2 (exec (PSleep ms k) st) =
  exec k (mk_state (now st + timer_timeout (nesting st) ms) (S (nesting st)) [] [] (log st)).
Proof.
  intros Ht Hm. pose proof (timer_timeout_range (nesting st) ms).
  destruct st as [t n ts mt l]; simpl in *; subst.
  cbn [run_loop loop_step sleep pick_timer microtasks timers now nesting log
       t_deadline t_level t_cont app].
  by rewrite Z.max_r by lia.
Qed.

(** C27. [await sleep(ms)] waits at least its timeout, whatever else
    runs: when the page's script starts, at time [t0], an async function
    that awaits [sleep(ms)] and goes on with [k], while the rest [rest] of
    the script, which never logs [n], runs on and may spawn any number of
    other sleeps, then in every state the event loop reaches, every [n]
    that has been logged was logged at [t0 + timer_timeout 0 ms] or later. *)
Theorem sleep_waits_at_least t0 ms k rest n st :
  n ∉ marks rest ->
  star lstep (start t0 (PSpawn (PSleep ms k) rest)) st ->
  forall t, (t, n) ∈ log st -> (t0 + timer_timeout 0 ms <= t)%Z.
Proof.
  intros Hrest Hs. apply (star_invariant lstep (sleep_wait_inv (t0 + timer_timeout 0 ms) n)) in Hs as [Hl _];
    [exact Hl | apply loop_step_wait_inv |].
  change (sleep_wait_inv (t0 + timer_timeout 0 ms) n (exec rest (sleep ms k (mk_state t0 0 [] [] [])))).
  apply exec_wait_inv; [|intros Hn; by destruct Hrest].
  unfold sleep; split_and!; simpl; [set_solver|set_solver|].
  intros tm Htm%list_elem_of_singleton _. subst tm. simpl. lia.
Qed.

(** C28. [sleep(ms)] registers one timer, due after a 32-bit delay: the
    awaiting continuation is appended to the pending timers, to run at the
    next nesting level, [d] after now, where [d] lies in [0, 2^31); [d] is
    [floor ms] for [0 <= ms < 2^31] unless the nesting level exceeds 5 and
    [ms < 4]; [d] is at most 4 for [2^31 <= ms < 2^32] (the wrap-around);
    and [d] is 0, or 4 above nesting level 5, for NaN, the infinities and
    [-2^31 <= ms < 0].  Nothing else changes. *)
Theorem sleep_registers_timer ms k st :
  exists d,
    exec (PSleep ms k) st =
      mk_state (now st) (nesting st) (timers st ++ [mk_timer (now st + d) (S (nesting st)) k])
        (microtasks st) (log st) /\
    (0 <= d < 2 ^ 31)%Z /\
    (forall q, ms = Fin q -> (0 <= q)%Q -> (q < inject_Z (2 ^ 31))%Q ->
       (nesting st <= 5 \/ (4 <= q)%Q) -> d = Qfloor q) /\
    (forall q, ms = Fin q -> (inject_Z (2 ^ 31) <= q)%Q -> (q < inject_Z (2 ^ 32))%Q -> (d <= 4)%Z) /\
    ((forall q, ms <> Fin q) \/ (exists q, ms = Fin q /\ (- inject_Z (2 ^ 31) <= q)%Q /\ (q < 0)%Q) ->
       d = if 5 <? nesting st then 4%Z else 0%Z).
Proof. exists (timer_timeout (nesting st) ms). split; [done|]. apply timer_timeout_cases. Qed.

End Sleep.

Lemma sleep_resumes_after_timeout_witness :
  Sleep.timers (Sleep.mk_state 0 0 [] [] []) = [] /\
  Sleep.microtasks (Sleep.mk_state 0 0 [] [] []) = [] /\
  Sleep.run_loop 2 (Sleep.exec (Sleep.PSleep (Fin 250) (Sleep.PLog 1 Sleep.PDone))
                      (Sleep.mk_state 0 0 [] [] [])) =
  Sleep.exec (Sleep.PLog 1 Sleep.PDone)
    (Sleep.mk_state (0 + Sleep.timer_timeout 0 (Fin 250)) 1 [] [] []).
Proof.
  split_and!; [reflexivity | reflexivity |].
  apply (Sleep.sleep_resumes_after_timeout (Fin 250) (Sleep.PLog 1 Sleep.PDone)
           (Sleep.mk_state 0 0 [] [] [])); reflexivity.
Defined.

(** The caller [f(); log 2] where [f = async () => { await sleep(0); log 1 }]. *)
Definition spawn_demo : Sleep.prog :=
  Sleep.PSpawn (Sleep.PSleep (Fin 0) (Sleep.PLog 1 Sleep.PDone)) (Sleep.PLog 2 Sleep.PDone).

(** [f(); log 2] where [f = async () => { await sleep(100); log 1 }]. *)
Definition wait_demo : Sleep.prog :=
  Sleep.PSpawn (Sleep.PSleep (Fin 100) (Sleep.PLog 1 Sleep.PDone)) (Sleep.PLog 2 Sleep.PDone).

Lemma sleep_waits_at_least_witness :
  (1 ∉ Sleep.marks (Sleep.PLog 2 Sleep.PDone)) /\
  star Sleep.lstep (Sleep.start 0 wait_demo) (Sleep.run_loop 2 (Sleep.start 0 wait_demo)) /\
  (100%Z, 1) ∈ Sleep.log (Sleep.run_loop 2 (Sleep.start 0 wait_demo)) /\
  (0 + Sleep.timer_timeout 0 (Fin 100) <= 100)%Z.
Proof.
  assert (Hm : 1 ∉ Sleep.marks (Sleep.PLog 2 Sleep.PDone)) by (simpl; set_solver).
  assert (Hs : star Sleep.lstep (Sleep.start 0 wait_demo)
                 (Sleep.run_loop 2 (Sleep.start 0 wait_demo))).
  { eapply star_step; [reflexivity|]. eapply star_step; [reflexivity|]. apply star_refl. }
  assert (Hl : (100%Z, 1) ∈ Sleep.log (Sleep.run_loop 2 (Sleep.start 0 wait_demo)))
    by (vm_compute; right; left).
  split_and!; [exact Hm | exact Hs | exact Hl |].
  exact (Sleep.sleep_waits_at_least 0 (Fin 100) (Sleep.PLog 1 Sleep.PDone) (Sleep.PLog 2 Sleep.PDone)
           1 _ Hm Hs 100 Hl).
Defined.

Lemma sleep_registers_timer_witness :
  Sleep.timers (Sleep.exec (Sleep.PSleep (Fin 1500) Sleep.PDone) (Sleep.mk_state 0 0 [] [] [])) =
    [Sleep.mk_timer 1500 1 Sleep.PDone].
Proof.
  destruct (Sleep.sleep_registers_timer (Fin 1500) Sleep.PDone (Sleep.mk_state 0 0 [] [] []))
    as (d & -> & _ & Hd & _). simpl.
  rewrite (Hd 1500%Q); [reflexivity | reflexivity | qdecide | qdecide | left; simpl; lia].
Defined.

(** [spawn_demo] prints 2 before 1, both at time 0. *)
Example spawn_demo_order :
  Sleep.log (Sleep.run_loop 10 (Sleep.start 0 spawn_demo)) = [(0%Z, 2); (0%Z, 1)].
Proof. vm_compute. reflexivity. Qed.

(** [for (8 times) await sleep(0); log 1]: the seventh and eighth timers
    are created at nesting levels 6 and 7, above 5, and clamped to 4 ms, so
    the loop takes 8 ms, not 0. *)
Fixpoint sleeps (n : nat) (k : Sleep.prog) : Sleep.prog :=
  match n with
  | 0 => k
  | S n => Sleep.PSleep (Fin 0) (sleeps n k)
  end.

Example nested_sleep_clamp :
  Sleep.log (Sleep.run_loop 20 (Sleep.start 0 (sleeps 8 (Sleep.PLog 1 Sleep.PDone)))) = [(8%Z, 1)].
Proof. vm_compute. reflexivity. Qed.
