(* ===== verification/Dom.v ===== *)
(** * The platform the binders act on: JavaScript objects and inline style

    [styleVars] reads and mutates JavaScript objects ([Object.entries],
    [Object.keys], [delete o[k]]) and an element's inline
    [CSSStyleDeclaration] ([setProperty], [removeProperty]).  This file
    models both, at the level of detail the binder's behaviour depends on:
    - [jsval]: the values a parameter object holds, with the WebIDL
      conversion [setProperty] applies to its value argument;
    - [obj]: an object's own string-keyed properties in property order, and
      the heap [gmap loc obj] of objects shared between the caller and the
      binder (the caller keeps references to the objects it passes);
    - [style]: the inline declaration block as a map from property name to
      value, with [setProperty] and [removeProperty] on custom properties
      (names starting with "--"; the binder never sets any other), following
      the CSSOM algorithm: an empty string removes the property, a value the
      CSS parser rejects leaves the declaration unchanged.

    The CSS value parser is a parameter [css_parse] of the sections below:
    the binder passes values through and the theorems hold for any parser. *)

From S2P Require Import Prelude JsNumber.

(** ** Values *)

Inductive jsval :=
| JStr (s : string)
| JInt (z : Z)
| JBool (b : bool)
| JNull
| JUndefined.

#[export] Instance jsval_eq_dec : EqDecision jsval.
Proof. solve_decision. Defined.

(** [setProperty]'s value is a [[LegacyNullToEmptyString] CSSOMString]:
    [null] becomes the empty string, anything else goes through ToString
    (integral numbers print in decimal). *)
Definition to_css_string (v : jsval) : string :=
  match v with
  | JStr s => s
  | JInt z => if decide (z < 0)%Z then "-" +:+ digits (Z.to_N (- z)) else digits (Z.to_N z)
  | JBool true => "true"
  | JBool false => "false"
  | JNull => ""
  | JUndefined => "undefined"
  end.

(** ** Objects and the heap *)

(** A plain object: its own enumerable string-keyed properties, in
    property order; [Object.entries] returns exactly this list. *)
Abbreviation obj := (list (string * jsval)).

(** Object references. *)
Abbreviation loc := positive.

(** Property names are unique in an object. *)
Definition obj_wf (o : obj) : Prop := NoDup o.*1.

Definition obj_keys (o : obj) : list string := o.*1.

(** [o[k]] for an own property [k] ([None] when absent). *)
Fixpoint obj_lookup (k : string) (o : obj) : option jsval :=
  match o with
  | [] => None
  | (k', v) :: o' => if decide (k' = k) then Some v else obj_lookup k o'
  end.

(** [delete o[k]]: removes the property if present. *)
Definition obj_delete (k : string) (o : obj) : obj :=
  filter (fun kv => kv.1 <> k) o.

(** The object left after deleting each of [ks]. *)
Definition obj_remove_keys (ks : list string) (o : obj) : obj :=
  filter (fun kv => kv.1 ∉ ks) o.

Lemma obj_lookup_None k o : k ∉ obj_keys o -> obj_lookup k o = None.
Proof.
  induction o as [|[k' v] o IH]; intros Hk; [done|]. simpl in *.
  rewrite decide_False by set_solver. apply IH. set_solver.
Qed.

Lemma obj_lookup_is_Some k o : is_Some (obj_lookup k o) <-> k ∈ obj_keys o.
Proof.
  induction o as [|[k' v] o IH]; simpl.
  - split; [by intros [? ?] | set_solver].
  - case_decide; subst; [split; [set_solver | by eexists]|].
    rewrite IH. set_solver.
Qed.

Lemma obj_keys_remove k ks o :
  k ∈ obj_keys (obj_remove_keys ks o) <-> k ∈ obj_keys o /\ k ∉ ks.
Proof.
  unfold obj_keys, obj_remove_keys. induction o as [|[k' v] o IH]; simpl.
  - set_solver.
  - rewrite filter_cons. case_decide; simpl; rewrite ?elem_of_cons, IH; naive_solver.
Qed.

Lemma obj_delete_remove_keys k o : obj_delete k o = obj_remove_keys [k] o.
Proof. unfold obj_delete, obj_remove_keys. apply list_filter_iff. set_solver. Qed.

Lemma obj_remove_keys_remove_keys ks ks' o :
  obj_remove_keys ks (obj_remove_keys ks' o) = obj_remove_keys (ks' ++ ks) o.
Proof.
  unfold obj_remove_keys. rewrite list_filter_filter.
  apply list_filter_iff. intros [k' v]. simpl. set_solver.
Qed.

Lemma obj_lookup_Some_elem k v o : obj_lookup k o = Some v -> (k, v) ∈ o.
Proof.
  induction o as [|[k' v'] o IH]; simpl; [done|].
  case_decide; [intros [= <-]; subst; left|intros Hk; right; auto].
Qed.

Lemma obj_remove_keys_nil o : obj_remove_keys [] o = o.
Proof.
  unfold obj_remove_keys. induction o as [|kv o IH]; [done|].
  rewrite filter_cons_True by set_solver. by f_equal.
Qed.

Lemma obj_remove_keys_all ks o :
  (forall k, k ∈ obj_keys o -> k ∈ ks) -> obj_remove_keys ks o = [].
Proof.
  unfold obj_remove_keys, obj_keys. induction o as [|[k v] o IH]; intros Hks; [done|].
  simpl in Hks. rewrite filter_cons_False by (simpl; set_solver). set_solver.
Qed.

Lemma obj_remove_own_keys o : obj_remove_keys (obj_keys o) o = [].
Proof. by apply obj_remove_keys_all. Qed.

(** ** Inline style *)

Abbreviation style := (gmap string string).

Section Cssom.
Context (css_parse : string -> option string).

(** [style.removeProperty(name)] *)
Definition removeProperty (name : string) (st : style) : style := delete name st.

(** [style.setProperty(name, value)] for a custom property [name]. *)
Definition setProperty (name : string) (v : jsval) (st : style) : style :=
  let s := to_css_string v in
  if decide (s = "") then removeProperty name st
  else match css_parse s with
       | Some c => <[name := c]> st
       | None => st
       end.

(** What [setProperty] leaves for its own property, given the old value. *)
Definition set_result (v : jsval) (old : option string) : option string :=
  let s := to_css_string v in
  if decide (s = "") then None
  else match css_parse s with
       | Some c => Some c
       | None => old
       end.

(** The declaration a value produces on an element that had none. *)
Definition css_value (v : jsval) : option string := set_result v None.

(** A value [setProperty] applies: empty (removal) or accepted by the
    parser. *)
Definition settable (v : jsval) : Prop :=
  to_css_string v = "" \/ is_Some (css_parse (to_css_string v)).

Lemma setProperty_lookup_eq name v st :
  setProperty name v st !! name = set_result v (st !! name).
Proof.
  unfold setProperty, set_result, removeProperty.
  case_decide; [by rewrite lookup_delete_eq|].
  destruct (css_parse _); [by rewrite lookup_insert_eq | done].
Qed.

Lemma setProperty_lookup_ne name name' v st :
  name <> name' -> setProperty name v st !! name' = st !! name'.
Proof.
  intros Hne. unfold setProperty, removeProperty.
  case_decide; [by rewrite lookup_delete_ne|].
  destruct (css_parse _); [by rewrite lookup_insert_ne | done].
Qed.

(** On a settable value the result does not depend on the old one. *)
Lemma set_result_settable v old : settable v -> set_result v old = css_value v.
Proof.
  unfold css_value, set_result. cbv zeta. intros Hv.
  destruct (decide _) as [Hs|Hs]; [done|].
  destruct Hv as [Hv | [c Hc]]; [done|]. by rewrite Hc.
Qed.
End Cssom.

#[export] Hint Rewrite setProperty_lookup_eq : toerings_rw.
