(* ===== verification/Action.v ===== *)
(** * Svelte actions: the contract between the runtime and [use:] directives

    Both binders of [actions.ts] are Svelte actions: [use:styleVars={p}]
    and [use:uPlotAction={p}].  The runtime calls the action with the
    element and the parameter on mount, calls the returned object's
    [update] (when it has one) each time the parameter expression is
    re-evaluated, and calls its [destroy] (when it has one) on unmount.

    [SvelteAction] states what an action provides to the runtime; [mount],
    [param_changed], [unmount] and [run_lifecycle] are the runtime's side.
    The binders' files give the instances, and the lifecycle theorems about
    them are proved against this interface. *)

From S2P Require Import Prelude.

(** An action over a world [W], with parameter [P] and returned handle [H]:
    the handle's optional methods are [action_update] and [action_destroy]
    (an action that returns no [update] or no [destroy] has [None]). *)
Class SvelteAction (W P H : Type) := {
  action_attach : W -> P -> W * H;
  action_update : option (H -> P -> W -> W * H);
  action_destroy : option (H -> W -> W);
}.

Section Runtime.
Context {W P H : Type} `{!SvelteAction W P H}.

(** Mount: [const handle = action(node, param)]. *)
Definition mount (w : W) (p : P) : W * H := action_attach w p.

(** The parameter changed: [if (handle.update) handle.update(param)]. *)
Definition param_changed (s : W * H) (p : P) : W * H :=
  match action_update with
  | Some upd => upd s.2 p s.1
  | None => s
  end.

(** Unmount: [if (handle.destroy) handle.destroy()]. *)
Definition unmount (s : W * H) : W :=
  match action_destroy with
  | Some d => d s.2 s.1
  | None => s.1
  end.

(** A mount, a sequence of parameter changes, and the unmount. *)
Definition run_lifecycle (w : W) (p0 : P) (ps : list P) : W :=
  unmount (fold_left param_changed ps (mount w p0)).

(** Without a [destroy] method, unmount leaves the world as the last update
    left it: whatever the action allocated stays allocated. *)
Lemma unmount_without_destroy s : action_destroy = None -> unmount s = s.1.
Proof. intros Hd. unfold unmount. by rewrite Hd. Qed.

(** Any property of the world that attach establishes and every update
    preserves holds at the end of a lifecycle of an action without
    [destroy]. *)
Lemma run_lifecycle_invariant (I : W * H -> Prop) w p0 ps :
  action_destroy = None ->
  I (mount w p0) ->
  (forall s p, I s -> I (param_changed s p)) ->
  exists h, I (run_lifecycle w p0 ps, h).
Proof.
  intros Hd H0 Hstep. unfold run_lifecycle. rewrite unmount_without_destroy by done.
  exists (fold_left param_changed ps (mount w p0)).2.
  rewrite <- surjective_pairing. revert H0. generalize (mount w p0).
  induction ps as [|p ps IH]; intros s Hs; simpl; [done|]. by apply IH, Hstep.
Qed.
End Runtime.
