(* ===== verification/StyleVars.v ===== *)
(** * [styleVars] (src/src/lib/actions.ts, lines 5-21)

    The Svelte action that projects a parameter object onto an element's
    inline CSS custom properties.  Its state is the closure variable
    [props], a reference to the object last applied; the objects live in the
    heap of [Dom], shared with the caller, and [update] deletes keys from
    the object [props] refers to.

    - [styleVars] and [update] are the action and its [update] method, the
      first loop of [update] is [update_entry], the second [remove_names];
    - [update_style_spec] gives the element's custom properties after any
      update, [update_heap_effect] what the update does to the caller's
      objects;
    - [mirrors] is the binder's contract (the element's custom properties
      are exactly the declarations of the tracked object); it holds after
      attach and is preserved by updates with a different object, hence in
      every state reachable by [sv_step];
    - an update with the object already tracked empties that object, and a
      later update then leaves stale properties behind. *)

From S2P Require Import Prelude JsNumber Dom.
From Stdlib Require Import Ascii.

Module StyleVars.

(** The shared state: the heap of objects and the element's inline style. *)
Record world := mk_world { heap : gmap loc obj; node_style : style }.

(** The action's closure: the reference held in [props]. *)
Record handle := mk_handle { props : loc }.

(** [`--${key}`] *)
Definition css_var (key : string) : string := "--" +:+ key.

Section WithParser.
Context (css_parse : string -> option string).

(** [Object.entries(props).forEach(([key, value]) =>
      node.style.setProperty(`--${key}`, value))] *)
Definition set_entries (entries : obj) (st : style) : style :=
  fold_left (fun st kv => setProperty css_parse (css_var kv.1) kv.2 st) entries st.

(** [styleVars(node, props)]: applies every entry and keeps [props]. *)
Definition styleVars (w : world) (p : loc) : world * handle :=
  (mk_world (heap w) (set_entries (heap w !!! p) (node_style w)), mk_handle p).

(** One iteration of the first loop of [update]:
    [node.style.setProperty(`--${key}`, value); delete props[key]]. *)
Definition update_entry (p : loc) (w : world) (kv : string * jsval) : world :=
  mk_world (<[p := obj_delete kv.1 (heap w !!! p)]> (heap w))
           (setProperty css_parse (css_var kv.1) kv.2 (node_style w)).

(** [Object.keys(props).forEach(name => node.style.removeProperty(`--${name}`))] *)
Definition remove_names (names : list string) (st : style) : style :=
  fold_left (fun st name => removeProperty (css_var name) st) names st.

(** [update(newProps)]: the entries of [newProps] are read once
    ([Object.entries] builds an array) before the loop deletes keys from
    the object [props] refers to; then the keys left in that object are
    removed from the style and [props = newProps]. *)
Definition update (h : handle) (newProps : loc) (w : world) : world * handle :=
  let w1 := fold_left (update_entry (props h)) (heap w !!! newProps) w in
  (mk_world (heap w1) (remove_names (obj_keys (heap w1 !!! props h)) (node_style w1)),
   mk_handle newProps).

(** The contract: the element's custom properties are exactly the
    declarations the object [o] produces. *)
Definition mirrors (st : style) (o : obj) : Prop :=
  forall k, st !! css_var k = obj_lookup k o ≫= css_value css_parse.

(** The reference the diffing [update] is measured against: remove every
    property of the tracked object, then set every entry of the new one. *)
Definition rerender (h : handle) (newProps : loc) (w : world) : style :=
  set_entries (heap w !!! newProps) (remove_names (obj_keys (heap w !!! props h)) (node_style w)).

End WithParser.

(** ** Custom property names *)

(** The key of a custom property name. *)
Definition custom_key (p : string) : option string :=
  match p with
  | String a (String b k) =>
      if decide (a = "-"%char /\ b = "-"%char) then Some k else None
  | _ => None
  end.

Lemma custom_key_css_var k : custom_key (css_var k) = Some k.
Proof. reflexivity. Qed.

Lemma css_var_inj k k' : css_var k = css_var k' -> k = k'.
Proof.
  intros H. apply (f_equal custom_key) in H. rewrite !custom_key_css_var in H.
  by simplify_eq.
Qed.

Lemma custom_key_None p k : custom_key p = None -> p <> css_var k.
Proof. intros Hp ->. by rewrite custom_key_css_var in Hp. Qed.

Lemma custom_key_Some p k : custom_key p = Some k -> p = css_var k.
Proof.
  destruct p as [|a [|b p]]; simpl; try done.
  case_decide as Hab; [|done]. destruct Hab as [-> ->]. by intros [= ->].
Qed.

(** ** The two loops of [update] *)

Section Lemmas.
Context (css_parse : string -> option string).

Lemma set_entries_custom E st k :
  obj_wf E ->
  set_entries css_parse E st !! css_var k =
    match obj_lookup k E with
    | Some v => set_result css_parse v (st !! css_var k)
    | None => st !! css_var k
    end.
Proof.
  unfold set_entries, obj_wf. revert st.
  induction E as [|[k' v] E IH]; intros st Hwf; [done|].
  simpl in Hwf. apply NoDup_cons in Hwf as [Hk' Hwf]. simpl. rewrite IH by done.
  case_decide as Heq.
  - subst k'. rewrite obj_lookup_None by done. by rewrite setProperty_lookup_eq.
  - rewrite setProperty_lookup_ne; [done|]. intros Hc. apply css_var_inj in Hc. congruence.
Qed.

Lemma set_entries_other E st p :
  custom_key p = None -> set_entries css_parse E st !! p = st !! p.
Proof.
  unfold set_entries. revert st. induction E as [|[k v] E IH]; intros st Hp; [done|].
  simpl. rewrite IH by done. apply setProperty_lookup_ne.
  intros Hc. by apply (custom_key_None p k).
Qed.

Lemma remove_names_custom ns st k :
  remove_names ns st !! css_var k = if decide (k ∈ ns) then None else st !! css_var k.
Proof.
  unfold remove_names, removeProperty. revert st.
  induction ns as [|n ns IH]; intros st; simpl;
    [first [done | case_decide; set_solver]|].
  rewrite IH. destruct (decide (k = n)) as [->|Hne].
  - rewrite lookup_delete_eq.
    destruct (decide (n ∈ ns)); by rewrite decide_True by set_solver.
  - rewrite lookup_delete_ne by (intros Hc; apply css_var_inj in Hc; congruence).
    repeat case_decide; set_solver.
Qed.

Lemma remove_names_other ns st p :
  custom_key p = None -> remove_names ns st !! p = st !! p.
Proof.
  unfold remove_names, removeProperty. revert st.
  induction ns as [|n ns IH]; intros st Hp; [done|]. simpl. rewrite IH by done.
  apply lookup_delete_ne. intros Hc. by apply (custom_key_None p n).
Qed.

Lemma update_fold_style p E w :
  node_style (fold_left (update_entry css_parse p) E w) = set_entries css_parse E (node_style w).
Proof.
  unfold set_entries. revert w. induction E as [|kv E IH]; intros w; [done|].
  simpl. by rewrite IH.
Qed.

Lemma update_fold_heap p E w :
  heap (fold_left (update_entry css_parse p) E w) !!! p = obj_remove_keys E.*1 (heap w !!! p) /\
  forall l, l <> p -> heap (fold_left (update_entry css_parse p) E w) !! l = heap w !! l.
Proof.
  revert w. induction E as [|kv E IH]; intros w; simpl.
  - by rewrite obj_remove_keys_nil.
  - destruct (IH (update_entry css_parse p w kv)) as [Hp Hl]. simpl in Hp, Hl. split.
    + rewrite Hp, lookup_total_insert_eq, obj_delete_remove_keys.
      by rewrite obj_remove_keys_remove_keys.
    + intros l Hne. rewrite Hl by done. by rewrite lookup_insert_ne.
Qed.

Lemma set_result_css_value v old c :
  css_value css_parse v = Some c -> set_result css_parse v old = Some c.
Proof.
  unfold css_value, set_result. cbv zeta. case_decide; [done|].
  by destruct (css_parse _).
Qed.

Lemma obj_lookup_settable E k v :
  Forall (settable css_parse) E.*2 -> obj_lookup k E = Some v -> settable css_parse v.
Proof.
  intros Hall Hk%obj_lookup_Some_elem. rewrite Forall_forall in Hall.
  apply Hall, (list_elem_of_fmap_2 snd E (k, v) Hk).
Qed.

End Lemmas.

(** ** Behaviour of [update] *)

Section Update.
Context (css_parse : string -> option string).

Lemma update_custom_prop w h newProps k :
  obj_wf (heap w !!! newProps) ->
  node_style (update css_parse h newProps w).1 !! css_var k =
    match obj_lookup k (heap w !!! newProps) with
    | Some v => set_result css_parse v (node_style w !! css_var k)
    | None =>
        if decide (k ∈ obj_keys (heap w !!! props h)) then None
        else node_style w !! css_var k
    end.
Proof.
  intros Hwf. unfold update. simpl.
  destruct (update_fold_heap css_parse (props h) (heap w !!! newProps) w) as [Hp _].
  rewrite Hp, remove_names_custom, update_fold_style, set_entries_custom by done.
  destruct (obj_lookup k _) as [v|] eqn:Hk.
  - rewrite decide_False; [done|]. rewrite obj_keys_remove. intros [_ Hn].
    apply Hn, obj_lookup_is_Some. by rewrite Hk.
  - assert (k ∉ obj_keys (heap w !!! newProps)) as Hn.
    { rewrite <- obj_lookup_is_Some, Hk. by intros [? ?]. }
    destruct (decide (k ∈ obj_keys (heap w !!! props h))).
    + rewrite decide_True; [done|]. by apply obj_keys_remove.
    + rewrite decide_False; [done|]. rewrite obj_keys_remove. tauto.
Qed.

(** C2. After [update(newProps)] the custom property of key [k] holds what
    [setProperty] makes of [newProps[k]] when [k] is a key of [newProps];
    otherwise it is removed when [k] is still a key of the object [props]
    refers to, and left as it was when it is not.  (This holds whether or
    not [newProps] is the object [props] refers to.) *)
Theorem update_style_spec w h newProps k :
  obj_wf (heap w !!! newProps) ->
  node_style (update css_parse h newProps w).1 !! css_var k =
    match obj_lookup k (heap w !!! newProps) with
    | Some v => set_result css_parse v (node_style w !! css_var k)
    | None =>
        if decide (k ∈ obj_keys (heap w !!! props h)) then None
        else node_style w !! css_var k
    end.
Proof. apply update_custom_prop. Qed.


Lemma update_other_prop w h newProps p :
  custom_key p = None ->
  node_style (update css_parse h newProps w).1 !! p = node_style w !! p.
Proof.
  intros Hp. unfold update. simpl.
  by rewrite remove_names_other, update_fold_style, set_entries_other.
Qed.

(** C11. [update] never touches a declaration that is not a custom
    property. *)
Theorem update_other_untouched w h newProps p :
  custom_key p = None ->
  node_style (update css_parse h newProps w).1 !! p = node_style w !! p.
Proof. apply update_other_prop. Qed.

(** C29. The diffing [update] is equivalent to a full re-render: when the
    new object is well formed and every one of its values is one
    [setProperty] applies, the inline style [update] leaves is exactly the
    one obtained by removing every property of the tracked object and then
    setting every entry of the new one. *)
Theorem update_equiv_rerender w h newProps :
  obj_wf (heap w !!! newProps) -> Forall (settable css_parse) (heap w !!! newProps).*2 ->
  node_style (update css_parse h newProps w).1 = rerender css_parse h newProps w.
Proof.
  intros Hwf Hset. apply map_eq. intros p. unfold rerender.
  destruct (custom_key p) as [k|] eqn:Hp.
  - apply custom_key_Some in Hp as ->.
    rewrite update_custom_prop, set_entries_custom, remove_names_custom by done.
    destruct (obj_lookup k _) as [v|] eqn:Hk; [|done].
    by rewrite !set_result_settable by (eapply obj_lookup_settable; eauto).
  - by rewrite update_other_prop, set_entries_other, remove_names_other.
Qed.

(** C8. [update] mutates the caller's previous parameter object: every
    key of [newProps] is deleted from the object [props] referred to; no
    other object changes. *)
Theorem update_heap_effect w h newProps :
  heap (update css_parse h newProps w).1 !!! props h =
    obj_remove_keys (obj_keys (heap w !!! newProps)) (heap w !!! props h) /\
  forall l, l <> props h -> heap (update css_parse h newProps w).1 !! l = heap w !! l.
Proof. apply update_fold_heap. Qed.

Lemma update_handle w h newProps : (update css_parse h newProps w).2 = mk_handle newProps.
Proof. reflexivity. Qed.

Lemma update_lookup_total_ne w h newProps l :
  l <> props h -> heap (update css_parse h newProps w).1 !!! l = heap w !!! l.
Proof.
  intros Hne. unfold lookup_total, map_lookup_total, update. simpl.
  by rewrite (proj2 (update_fold_heap css_parse _ _ w) l Hne).
Qed.

(** Attaching to an element without custom properties establishes the
    contract for the initial object. *)
Lemma styleVars_mirrors w p :
  (forall k, node_style w !! css_var k = None) -> obj_wf (heap w !!! p) ->
  mirrors css_parse (node_style (styleVars css_parse w p).1) (heap w !!! p).
Proof.
  intros Hnone Hwf k. simpl. rewrite set_entries_custom, Hnone by done.
  by destruct (obj_lookup k _).
Qed.

(** An update with an object other than the tracked one preserves the
    contract, when every value of the new object is settable (empty, or
    accepted by the CSS parser). *)
Lemma update_preserves_mirrors w h newProps :
  mirrors css_parse (node_style w) (heap w !!! props h) ->
  props h <> newProps -> obj_wf (heap w !!! newProps) ->
  Forall (settable css_parse) (heap w !!! newProps).*2 ->
  mirrors css_parse (node_style (update css_parse h newProps w).1)
    (heap (update css_parse h newProps w).1 !!! props (update css_parse h newProps w).2).
Proof.
  intros Hm Hne Hwf Hset k. simpl (props _).
  rewrite update_lookup_total_ne by done. rewrite update_custom_prop by done.
  destruct (obj_lookup k _) as [v|] eqn:Hk; simpl.
  - apply set_result_settable. by eapply obj_lookup_settable.
  - case_decide as Hin; [done|]. rewrite Hm, obj_lookup_None by done. done.
Qed.

End Update.

(** ** Lifecycle as a step relation

    After attach, two things happen to the state: Svelte calls [update]
    with a parameter object (when the parameter expression is an object
    literal, a new object each time), and the caller creates or changes
    objects other than the one the action tracks. *)

Section Lifecycle.
Context (css_parse : string -> option string).

Inductive sv_step : world * handle -> world * handle -> Prop :=
  | sv_update w h l :
    l <> props h -> obj_wf (heap w !!! l) ->
    Forall (settable css_parse) (heap w !!! l).*2 ->
    sv_step (w, h) (update css_parse h l w)
  | sv_caller_write w h l o :
    l <> props h ->
    sv_step (w, h) (mk_world (<[l := o]> (heap w)) (node_style w), h).

Definition sv_inv (s : world * handle) : Prop :=
  mirrors css_parse (node_style s.1) (heap s.1 !!! props s.2).

Lemma sv_step_inv s s' : sv_step s s' -> sv_inv s -> sv_inv s'.
Proof.
  unfold sv_inv. intros [w h l Hne Hwf Hset | w h l o Hne] Hinv; simpl in *.
  - by apply update_preserves_mirrors.
  - by rewrite lookup_total_insert_ne.
Qed.

(** C1. Refinement of the contract: in every state reachable from attach
    on an element without custom properties, through updates with other
    objects whose values are settable and writes of the caller to
    untracked objects, the element's custom properties are exactly the
    declarations of the tracked object. *)
Theorem sv_reachable_mirrors w p s :
  (forall k, node_style w !! css_var k = None) -> obj_wf (heap w !!! p) ->
  star sv_step (styleVars css_parse w p) s -> sv_inv s.
Proof.
  intros Hnone Hwf Hs. assert (sv_inv (styleVars css_parse w p)) as H0.
  { exact (styleVars_mirrors css_parse w p Hnone Hwf). }
  induction Hs as [s|s s' s'' Hstep Hs IH]; [done|].
  apply IH. by eapply sv_step_inv.
Qed.

(** C9. Updating with an object of the same content as the tracked one
    (the same object included) leaves the inline style unchanged. *)
Theorem update_idempotent w h newProps :
  mirrors css_parse (node_style w) (heap w !!! props h) ->
  obj_wf (heap w !!! newProps) ->
  Forall (settable css_parse) (heap w !!! newProps).*2 ->
  (forall k, obj_lookup k (heap w !!! newProps) = obj_lookup k (heap w !!! props h)) ->
  node_style (update css_parse h newProps w).1 = node_style w.
Proof.
  intros Hm Hwf Hset Hsame. apply map_eq. intros p.
  destruct (custom_key p) as [k|] eqn:Hp; [|by apply update_other_prop].
  apply custom_key_Some in Hp as ->. rewrite update_custom_prop, Hm by done.
  rewrite <- Hsame. destruct (obj_lookup k _) as [v|] eqn:Hk; simpl.
  - apply set_result_settable. by eapply obj_lookup_settable.
  - case_decide; [done|]. by rewrite Hm, <- Hsame, Hk.
Qed.

(** C3. Code bug: an update with the object [props] already refers to
    deletes every key of that object, so the action forgets what it
    applied.  A later update with another object that lacks key [k] then
    leaves the stale property [--k] on the element, against the
    contract. *)
Theorem stale_property_after_same_object w h l k v c :
  obj_wf (heap w !!! props h) -> obj_wf (heap w !!! l) ->
  obj_lookup k (heap w !!! props h) = Some v -> css_value css_parse v = Some c ->
  l <> props h -> k ∉ obj_keys (heap w !!! l) ->
  let s1 := update css_parse h (props h) w in
  let s2 := update css_parse s1.2 l s1.1 in
  heap s1.1 !!! props s1.2 = [] /\ node_style s2.1 !! css_var k = Some c.
Proof.
  intros Hwf Hwfl Hk Hc Hne Hl s1 s2. subst s1 s2. rewrite !update_handle. simpl (props _).
  assert (Hempty : heap (update css_parse h (props h) w).1 !!! props h = []).
  { unfold update. simpl. rewrite (proj1 (update_fold_heap _ _ _ _)).
    apply obj_remove_own_keys. }
  split; [done|].
  rewrite update_custom_prop; rewrite update_lookup_total_ne by done; [|done].
  rewrite obj_lookup_None by done. cbn [props]. rewrite Hempty, decide_False by set_solver.
  rewrite update_custom_prop, Hk by done. by apply set_result_css_value.
Qed.


End Lifecycle.

(** ** Concrete runs

    The parser that accepts every value, and the two objects of the spec's
    example: [{a: "1", b: "2"}] at reference 1 and [{b: "3", c: "4"}] at
    reference 2, on an element whose only declaration is [color]. *)

Definition accept_all : string -> option string := Some.

Definition demo_world : world :=
  mk_world {[ 1%positive := [("a", JStr "1"); ("b", JStr "2")];
              2%positive := [("b", JStr "3"); ("c", JStr "4")] ]}
           {[ "color" := "red" ]}.

Lemma demo_world_no_custom k : node_style demo_world !! css_var k = None.
Proof.
  simpl. apply lookup_singleton_ne. intros Hc. by apply (custom_key_None "color" k).
Qed.

(** The spec's round trip: [a] removed, [b] overwritten, [c] added, the
    other declaration kept. *)
Example styleVars_roundtrip_demo :
  node_style (update accept_all (styleVars accept_all demo_world 1).2 2
                (styleVars accept_all demo_world 1).1).1 =
    {[ "--b" := "3"; "--c" := "4"; "color" := "red" ]}.
Proof. vm_compute. reflexivity. Qed.

Lemma update_style_spec_witness :
  obj_wf (heap demo_world !!! 2%positive) /\
  node_style (update accept_all (mk_handle 1) 2 demo_world).1 !! css_var "b" =
    match obj_lookup "b" (heap demo_world !!! 2%positive) with
    | Some v => set_result accept_all v (node_style demo_world !! css_var "b")
    | None =>
        if decide ("b" ∈ obj_keys (heap demo_world !!! props (mk_handle 1))) then None
        else node_style demo_world !! css_var "b"
    end.
Proof. split; [by_decide | apply update_style_spec; by_decide]. Defined.

Lemma update_equiv_rerender_witness :
  obj_wf (heap demo_world !!! 2%positive) /\
  Forall (settable accept_all) (heap demo_world !!! 2%positive).*2 /\
  node_style (update accept_all (mk_handle 1) 2 demo_world).1 =
    rerender accept_all (mk_handle 1) 2 demo_world.
Proof.
  assert (Hwf : obj_wf (heap demo_world !!! 2%positive)) by by_decide.
  assert (Hs : Forall (settable accept_all) (heap demo_world !!! 2%positive).*2).
  { change ((heap demo_world !!! 2%positive).*2) with [JStr "3"; JStr "4"].
    repeat (apply Forall_cons; split; [right; eexists; reflexivity|]). constructor. }
  split_and!; [exact Hwf | exact Hs | apply update_equiv_rerender; assumption].
Defined.

Lemma update_other_untouched_witness :
  node_style (update accept_all (mk_handle 1) 2 demo_world).1 !! "color" =
    node_style demo_world !! "color".
Proof. apply update_other_untouched. reflexivity. Defined.

Lemma sv_reachable_mirrors_witness :
  sv_inv accept_all (update accept_all (mk_handle 1) 2 (styleVars accept_all demo_world 1).1).
Proof.
  apply (sv_reachable_mirrors accept_all demo_world 1);
    [apply demo_world_no_custom | by_decide |].
  eapply star_step; [apply sv_update | apply star_refl].
  - discriminate.
  - by_decide.
  - apply Forall_forall. intros x _. right. by eexists.
Defined.

Lemma update_idempotent_witness :
  let w := (styleVars accept_all demo_world 1).1 in
  node_style (update accept_all (mk_handle 1) 1 w).1 = node_style w.
Proof.
  apply update_idempotent; [| by_decide | | reflexivity].
  - exact (styleVars_mirrors accept_all demo_world 1 demo_world_no_custom
             ltac:(by_decide)).
  - apply Forall_forall. intros x _. right. by eexists.
Defined.

(** The leak, run: [update] with reference 1 twice (the second call
    empties the object), then with an object holding only [c]. *)
Lemma stale_property_after_same_object_witness :
  let s1 := update accept_all (mk_handle 1) 1
              {| heap := <[3%positive := [("c", JStr "4")]]> (heap demo_world);
                 node_style := {[ "--a" := "1"; "--b" := "2" ]} |} in
  let s2 := update accept_all s1.2 3 s1.1 in
  heap s1.1 !!! props s1.2 = [] /\ node_style s2.1 !! css_var "a" = Some "1".
Proof.
  apply (stale_property_after_same_object accept_all _ (mk_handle 1) 3 "a" (JStr "1") "1");
    first [by_decide | reflexivity | discriminate].
Defined.

End StyleVars.
