(* ===== verification/Color.v ===== *)
(** * The colour model the binders consume (the colord library)

    [actions.ts] and [stores.ts] use colord only through four operations:
    [colord(str)] (parse), [.alpha(a)], [.lighten(amount)] and
    [.toHslString()].  [Colord] states exactly this capability; the chart
    binder's theorems are proved for every instance.

    [ColorTerm] is the free instance: a colour is the term of the calls that
    built it and [toHslString] prints that term, so a concrete run shows
    which operations were applied, with which arguments and in which order. *)

From S2P Require Import Prelude JsNumber.

Class Colord (color : Type) := {
  colord : string -> color;
  alpha : Q -> color -> color;
  lighten : Q -> color -> color;
  toHslString : color -> string;
}.

(** The transform of [makePlotOptions] and of the producers installed by
    [update]: [color.alpha(a).lighten(0.2).toHslString()]. *)
Definition plot_style `{Colord color} (a : Q) (c : color) : string :=
  toHslString (lighten (1 # 5) (alpha a c)).

(** [color || colord("#fff")]: an absent colour falls back to white. *)
Definition color_or_white `{Colord color} (c : option color) : color :=
  match c with
  | Some c => c
  | None => colord "#fff"
  end.

(** ** The free instance *)

Inductive color_term :=
| CParse (s : string)
| CAlpha (a : Q) (c : color_term)
| CLighten (amount : Q) (c : color_term).

Definition show_Q (q : Q) : string :=
  (if decide (Qnum q < 0)%Z then "-" else "") +:+
  digits (Z.to_N (Z.abs (Qnum q))) +:+ "/" +:+ digits (Npos (Qden q)).

Fixpoint show_color_term (c : color_term) : string :=
  match c with
  | CParse s => "colord(" +:+ s +:+ ")"
  | CAlpha a c => show_color_term c +:+ ".alpha(" +:+ show_Q a +:+ ")"
  | CLighten a c => show_color_term c +:+ ".lighten(" +:+ show_Q a +:+ ")"
  end.

#[export] Instance ColorTerm : Colord color_term := {
  colord := CParse;
  alpha := CAlpha;
  lighten := CLighten;
  toHslString c := show_color_term c +:+ ".toHslString()";
}.
