(* ===== verification/Plot.v ===== *)
(** * [uPlotAction] and [makePlotOptions] (src/src/lib/actions.ts, lines 23-60)

    The chart binder builds one uPlot instance on mount and, on every
    update, replaces its data and installs style producers on its second
    series, without building a new instance.

    The uPlot library is modelled at the level the binder uses it: a store
    of instances ([plots], allocated by [new_uPlot] at fresh indices), each
    with its construction options, its data, its live series styles, a flag
    for a scheduled redraw and a liveness flag ([destroy] would clear it).
    [setData] replaces the data and schedules a redraw; assigning
    [series[1].stroke]/[.fill] replaces the style source; [redraw] is the
    deferred commit that paints: it evaluates each style source (a string
    as given, a producer by calling it, counted in [color_evals]) and
    appends what it drew to [painted].  Colours are any [Colord] instance. *)

From S2P Require Import Prelude JsNumber Action Color.

Module Plot.

(** Elements the charts are mounted on. *)
Abbreviation node := positive.

Section WithColor.
Context {C : Type} `{!Colord C}.

(** [interface PlotData { x; y; color? }] *)
Record PlotData := mk_plot_data {
  x : list number;
  y : list number;
  color : option C;
}.

(** A series' [stroke]/[fill]: a string from the options, or the producer
    [() => (newData.color || colord("#fff")).alpha(a).lighten(0.2).toHslString()]
    that [update] installs, closing over [newData.color]. *)
Inductive style_src :=
| StyleString (s : string)
| StyleProducer (c : option C) (a : Q).

Record series_opts := mk_series { stroke : option style_src; fill : option style_src }.

Record axis_opts := mk_axis { axis_show : bool }.

(** The fields of uPlot's [Options] that [makePlotOptions] sets. *)
Record Options := mk_options {
  width : Z;
  height : Z;
  pxAlign : bool;
  cursor_show : bool;
  select_show : bool;
  legend_show : bool;
  scale_x_time : bool;
  axes : list axis_opts;
  series : list series_opts;
}.

(** [makePlotOptions(color)]: the two colour strings are computed once. *)
Definition makePlotOptions (c : C) : Options :=
  let stroke := plot_style (7 # 10) c in
  let fill := plot_style (1 # 2) c in
  {| width := 180; height := 15; pxAlign := false;
     cursor_show := false; select_show := false; legend_show := false;
     scale_x_time := false;
     axes := [mk_axis false; mk_axis false];
     series := [mk_series None None;
                mk_series (Some (StyleString stroke)) (Some (StyleString fill))] |}.

(** ** The uPlot instance store *)

Record uplot := mk_uplot {
  u_opts : Options;
  u_target : node;
  u_data : list (list number);
  u_series : list series_opts;
  u_pending : bool;
  u_alive : bool;
}.

(** What one redraw painted: the instance, its data and the resolved
    stroke and fill of series 1. *)
Record paint := mk_paint {
  p_plot : nat;
  p_data : list (list number);
  p_stroke : option string;
  p_fill : option string;
}.

Record chart_world := mk_cw {
  plots : gmap nat uplot;
  next_plot : nat;
  painted : list paint;
  color_evals : nat;
}.

Definition set_plot (id : nat) (u : uplot) (w : chart_world) : chart_world :=
  mk_cw (<[id := u]> (plots w)) (next_plot w) (painted w) (color_evals w).

(** [new uPlot(options, data, node)]: a fresh instance with the options'
    series, its first draw scheduled. *)
Definition new_uPlot (opts : Options) (data : list (list number)) (target : node)
    (w : chart_world) : chart_world * nat :=
  let id := next_plot w in
  (mk_cw (<[id := mk_uplot opts target data (series opts) true true]> (plots w))
         (S id) (painted w) (color_evals w), id).

(** [plot.setData(data)]: replaces the data and schedules a redraw. *)
Definition setData (id : nat) (data : list (list number)) (w : chart_world) : chart_world :=
  match plots w !! id with
  | Some u => set_plot id (mk_uplot (u_opts u) (u_target u) data (u_series u) true (u_alive u)) w
  | None => w
  end.

(** [plot.series[i] = f(plot.series[i])] *)
Definition alter_series (id i : nat) (f : series_opts -> series_opts) (w : chart_world)
    : chart_world :=
  match plots w !! id with
  | Some u =>
      set_plot id (mk_uplot (u_opts u) (u_target u) (u_data u)
                     (alter f i (u_series u)) (u_pending u) (u_alive u)) w
  | None => w
  end.

(** [plot.series[i].stroke = s] and [plot.series[i].fill = s] *)
Definition set_series_stroke (id i : nat) (s : style_src) : chart_world -> chart_world :=
  alter_series id i (fun so => mk_series (Some s) (fill so)).

Definition set_series_fill (id i : nat) (s : style_src) : chart_world -> chart_world :=
  alter_series id i (fun so => mk_series (stroke so) (Some s)).

(** Resolving a style when painting: a producer is called each time. *)
Definition eval_style (s : option style_src) : option string * nat :=
  match s with
  | None => (None, 0)
  | Some (StyleString str) => (Some str, 0)
  | Some (StyleProducer c a) => (Some (plot_style a (color_or_white c)), 1)
  end.

(** The deferred commit of a scheduled redraw of a live instance. *)
Definition redraw (id : nat) (w : chart_world) : chart_world :=
  match plots w !! id with
  | Some u =>
      if u_pending u && u_alive u then
        let s1 := default (mk_series None None) (u_series u !! 1) in
        let '(st, n1) := eval_style (stroke s1) in
        let '(fl, n2) := eval_style (fill s1) in
        mk_cw (<[id := mk_uplot (u_opts u) (u_target u) (u_data u) (u_series u) false true]>
                 (plots w))
              (next_plot w) (painted w ++ [mk_paint id (u_data u) st fl])
              (color_evals w + n1 + n2)
      else w
  | None => w
  end.

(** ** The action *)

(** [uPlotAction(node, data)]: [makePlotOptions] evaluates the colour
    transform twice, then the instance is built with [[x, y]]. *)
Definition uPlotAction (target : node) (w : chart_world) (data : PlotData)
    : chart_world * nat :=
  let opts := makePlotOptions (color_or_white (color data)) in
  new_uPlot opts [x data; y data] target
    (mk_cw (plots w) (next_plot w) (painted w) (color_evals w + 2)).

(** [update(newData)]: [setData], then the two producers on series 1. *)
Definition update (plot : nat) (newData : PlotData) (w : chart_world) : chart_world * nat :=
  let w1 := setData plot [x newData; y newData] w in
  let w2 := set_series_stroke plot 1 (StyleProducer (color newData) (7 # 10)) w1 in
  let w3 := set_series_fill plot 1 (StyleProducer (color newData) (1 # 2)) w2 in
  (w3, plot).

End WithColor.

(** The action as the Svelte runtime sees it: it returns [update] and no
    [destroy]. *)
#[export] Instance uPlot_action {C} `{!Colord C} (target : node)
  : SvelteAction chart_world (@PlotData C) nat := {
  action_attach := uPlotAction target;
  action_update := Some update;
  action_destroy := None;
}.

(** ** Store lemmas *)

Section Lemmas.
Context {C : Type} `{!Colord C}.
Implicit Types (w : @chart_world C) (u : @uplot C).

(** Indices at or above [next_plot] are unallocated. *)
Definition store_wf w : Prop := forall id, next_plot w <= id -> plots w !! id = None.

Lemma setData_lookup id data w u :
  plots w !! id = Some u ->
  plots (setData id data w) !! id =
    Some (mk_uplot (u_opts u) (u_target u) data (u_series u) true (u_alive u)).
Proof. intros Hu. unfold setData. rewrite Hu. apply lookup_insert_eq. Qed.

Lemma alter_series_lookup id i f w u :
  plots w !! id = Some u ->
  plots (alter_series id i f w) !! id =
    Some (mk_uplot (u_opts u) (u_target u) (u_data u) (alter f i (u_series u))
            (u_pending u) (u_alive u)).
Proof. intros Hu. unfold alter_series. rewrite Hu. apply lookup_insert_eq. Qed.

Lemma setData_lookup_ne id id' data w :
  id <> id' -> plots (setData id data w) !! id' = plots w !! id'.
Proof. intros Hne. unfold setData. case_match; [|done]. by apply lookup_insert_ne. Qed.

Lemma alter_series_lookup_ne id id' i f w :
  id <> id' -> plots (alter_series id i f w) !! id' = plots w !! id'.
Proof. intros Hne. unfold alter_series. case_match; [|done]. by apply lookup_insert_ne. Qed.

Lemma setData_counters id data w :
  next_plot (setData id data w) = next_plot w /\ color_evals (setData id data w) = color_evals w /\
  painted (setData id data w) = painted w.
Proof. unfold setData. by case_match. Qed.

Lemma alter_series_counters id i f w :
  next_plot (alter_series id i f w) = next_plot w /\
  color_evals (alter_series id i f w) = color_evals w /\
  painted (alter_series id i f w) = painted w.
Proof. unfold alter_series. by case_match. Qed.

(** The series 1 that [update] leaves: both producers over [newData.color]. *)
Definition updated_series (c : option C) (so : @series_opts C) : @series_opts C :=
  mk_series (Some (StyleProducer c (7 # 10))) (Some (StyleProducer c (1 # 2))).

Lemma update_lookup plot d w u :
  plots w !! plot = Some u ->
  plots (update plot d w).1 !! plot =
    Some (mk_uplot (u_opts u) (u_target u) [x d; y d]
            (alter (fun so => mk_series (stroke so) (Some (StyleProducer (color d) (1 # 2)))) 1
              (alter (fun so => mk_series (Some (StyleProducer (color d) (7 # 10))) (fill so)) 1
                 (u_series u)))
            true (u_alive u)).
Proof.
  intros Hu. unfold update, set_series_fill, set_series_stroke. simpl.
  by rewrite (alter_series_lookup _ _ _ _ _
               (alter_series_lookup _ _ _ _ _ (setData_lookup _ _ _ _ Hu))).
Qed.

Lemma update_series_1 (d : @PlotData C) (l : list (@series_opts C)) :
  is_Some (l !! 1) ->
  alter (fun so => mk_series (stroke so) (Some (StyleProducer (color d) (1 # 2)))) 1
    (alter (fun so => mk_series (Some (StyleProducer (color d) (7 # 10))) (fill so)) 1 l) !! 1 =
  Some (updated_series (color d) (mk_series None None)).
Proof. intros [so Hso]. by rewrite !list_lookup_alter_eq, Hso. Qed.

Lemma update_lookup_ne plot id d w :
  plot <> id -> plots (update plot d w).1 !! id = plots w !! id.
Proof.
  intros Hne. unfold update, set_series_fill, set_series_stroke. simpl.
  by rewrite !alter_series_lookup_ne, setData_lookup_ne.
Qed.

Lemma update_counters plot d w :
  next_plot (update plot d w).1 = next_plot w /\
  color_evals (update plot d w).1 = color_evals w /\
  painted (update plot d w).1 = painted w.
Proof.
  unfold update, set_series_fill, set_series_stroke. simpl.
  destruct (alter_series_counters plot 1 (fun so => mk_series (stroke so)
              (Some (StyleProducer (color d) (1 # 2))))
              (alter_series plot 1 (fun so => mk_series (Some (StyleProducer (color d) (7 # 10)))
              (fill so)) (setData plot [x d; y d] w))) as (-> & -> & ->).
  destruct (alter_series_counters plot 1 (fun so => mk_series (Some (StyleProducer (color d) (7 # 10)))
              (fill so)) (setData plot [x d; y d] w)) as (-> & -> & ->).
  apply setData_counters.
Qed.

End Lemmas.

(** ** Updates and redraws as a sequence of events *)

Section Events.
Context {C : Type} `{!Colord C}.

(** What the contract asks the chart to show for data [d]: [[x, y]], and
    series 1 with [color.alpha(0.7).lighten(0.2)] as stroke and
    [color.alpha(0.5).lighten(0.2)] as fill, white when [color] is
    absent. *)
Definition expected_paint (plot : nat) (d : @PlotData C) : paint :=
  mk_paint plot [x d; y d]
    (Some (plot_style (7 # 10) (color_or_white (color d))))
    (Some (plot_style (1 # 2) (color_or_white (color d)))).

(** After mount, the chart sees updates (one per snapshot, in order) and
    redraws (uPlot's deferred commits), interleaved in any way. *)
Inductive chart_event :=
| EvUpdate (d : @PlotData C)
| EvRedraw.

Definition chart_step (plot : nat) (w : @chart_world C) (e : chart_event) : @chart_world C :=
  match e with
  | EvUpdate d => (update plot d w).1
  | EvRedraw => redraw plot w
  end.

Definition run_events (plot : nat) (w : @chart_world C) (es : list chart_event) : @chart_world C :=
  fold_left (chart_step plot) es w.

(** The data of the last update, or the mount's. *)
Definition current_data (d0 : @PlotData C) (es : list chart_event) : @PlotData C :=
  fold_left (fun d e => match e with EvUpdate d' => d' | EvRedraw => d end) es d0.

(** The instance is alive, holds the current data, its series 1 resolves
    to the current colour's strings, and once no redraw is pending the
    last paint is the expected one. *)
Definition chart_inv (plot : nat) (cur : @PlotData C) (w : @chart_world C) : Prop :=
  exists u, plots w !! plot = Some u /\ u_alive u = true /\ u_data u = [x cur; y cur] /\
    (exists s1, u_series u !! 1 = Some s1 /\
       (eval_style (stroke s1)).1 = p_stroke (expected_paint plot cur) /\
       (eval_style (fill s1)).1 = p_fill (expected_paint plot cur)) /\
    (u_pending u = false -> last (painted w) = Some (expected_paint plot cur)).

Lemma chart_inv_attach target w d0 :
  chart_inv (next_plot w) d0 (uPlotAction target w d0).1.
Proof.
  eexists. split; [apply lookup_insert_eq|]. simpl.
  split; [done|]. split; [done|]. split; [|done]. by eexists.
Qed.

Lemma chart_inv_update plot cur d w :
  chart_inv plot cur w -> chart_inv plot d (update plot d w).1.
Proof.
  intros (u & Hu & Ha & _ & (s1 & Hs1 & _) & _).
  eexists. rewrite (update_lookup _ _ _ u Hu). split; [done|]. simpl.
  split; [done|]. split; [done|]. split; [|done].
  eexists. rewrite update_series_1 by (by eexists). done.
Qed.

Lemma chart_inv_redraw plot cur w :
  chart_inv plot cur w ->
  chart_inv plot cur (redraw plot w) /\
  exists u, plots (redraw plot w) !! plot = Some u /\ u_pending u = false.
Proof.
  intros (u & Hu & Ha & Hd & (s1 & Hs1 & Hst & Hfl) & Hp).
  unfold redraw. rewrite Hu, Ha, Hs1. simpl.
  destruct (u_pending u) eqn:Hpend; simpl.
  - destruct (eval_style (stroke s1)) as [st n1] eqn:E1.
    destruct (eval_style (fill s1)) as [fl n2] eqn:E2. simpl in Hst, Hfl.
    split; [|eexists; split; [apply lookup_insert_eq | done]].
    eexists. split; [apply lookup_insert_eq|]. simpl.
    split; [done|]. split; [done|]. split; [exists s1; by rewrite E1, E2|].
    intros _. rewrite last_snoc, Hd, Hst, Hfl. reflexivity.
  - split; [|by eexists].
    exists u. split; [done|]. split; [done|]. split; [done|].
    split; [exists s1; auto|]. intros _. by apply Hp.
Qed.

Lemma chart_inv_run plot cur w es :
  chart_inv plot cur w -> chart_inv plot (current_data cur es) (run_events plot w es).
Proof.
  revert cur w. induction es as [|[d|] es IH]; intros cur w Hinv; simpl; [done| |].
  - apply IH. by eapply chart_inv_update.
  - apply IH. by apply chart_inv_redraw.
Qed.

Lemma run_events_snoc plot w es e :
  run_events plot w (es ++ [e]) = chart_step plot (run_events plot w es) e.
Proof. unfold run_events. by rewrite fold_left_app. Qed.

End Events.

(** ** Properties of the chart binder *)

Section Claims.
Context {C : Type} `{!Colord C}.

(** C7. Attach builds exactly one uPlot instance, at a fresh index, with
    [makePlotOptions] of the colour (white when absent) and the data
    [[x, y]]; nothing else in the store changes, and the colour transform
    is evaluated twice. *)
Theorem uPlotAction_constructs target (w : @chart_world C) d :
  store_wf w ->
  let '(w', plot) := uPlotAction target w d in
  plot = next_plot w /\ next_plot w' = S plot /\ store_wf w' /\
  plots w' !! plot =
    Some (mk_uplot (makePlotOptions (color_or_white (color d))) target [x d; y d]
            (series (makePlotOptions (color_or_white (color d)))) true true) /\
  (forall id, id <> plot -> plots w' !! id = plots w !! id) /\
  color_evals w' = color_evals w + 2.
Proof.
  intros Hwf. unfold uPlotAction, new_uPlot. cbn [plots next_plot color_evals painted].
  split; [done|]. split; [done|]. split.
  - intros id Hid. cbn [next_plot plots] in *. rewrite lookup_insert_ne by lia.
    apply Hwf. lia.
  - split; [apply lookup_insert_eq|]. split; [|done].
    intros id Hid. by apply lookup_insert_ne.
Qed.

(** C5. An update reuses the instance: it allocates nothing, returns the
    same handle, leaves every other instance alone and changes the
    instance's data to [[x, y]] while keeping its options and element. *)
Theorem update_reuses_instance target (w : @chart_world C) d0 es d :
  let plot := next_plot w in
  let w1 := run_events plot (uPlotAction target w d0).1 es in
  (update plot d w1).2 = plot /\
  next_plot (update plot d w1).1 = next_plot w1 /\
  (forall id, id <> plot -> plots (update plot d w1).1 !! id = plots w1 !! id) /\
  exists u u', plots w1 !! plot = Some u /\ plots (update plot d w1).1 !! plot = Some u' /\
    u_opts u' = u_opts u /\ u_target u' = u_target u /\ u_data u' = [x d; y d].
Proof.
  intros plot w1.
  destruct (chart_inv_run plot d0 _ es (chart_inv_attach target w d0)) as (u & Hu & _).
  split; [done|]. split; [apply update_counters|].
  split; [intros id Hid; by apply update_lookup_ne|].
  eexists u, _. split; [done|]. split; [by apply update_lookup|]. done.
Qed.

(** C4. Ordering: whatever interleaving of updates and deferred redraws
    follows the mount, the chart's last paint after a final redraw shows
    the data of the last update and its colour through the same transform
    [makePlotOptions] applies at mount (white when absent). *)
Theorem chart_paints_follow_updates target (w : @chart_world C) d0 es :
  let plot := next_plot w in
  last (painted (run_events plot (uPlotAction target w d0).1 (es ++ [EvRedraw]))) =
    Some (expected_paint plot (current_data d0 es)).
Proof.
  intros plot. rewrite run_events_snoc. simpl.
  destruct (chart_inv_redraw plot _ _
             (chart_inv_run plot d0 _ es (chart_inv_attach target w d0)))
    as [(u & Hu & _ & _ & _ & Hp) (u' & Hu' & Hpend)].
  rewrite Hu in Hu'. simplify_eq. by apply Hp.
Qed.

(** C10. Spec divergence: the producers installed by [update] are called on
    every redraw, so each update-and-redraw frame evaluates the colour
    transform twice, whether or not the colour changed: the strings are
    recomputed, not cached. *)
Theorem frame_recomputes_colors target (w : @chart_world C) d0 es d :
  let plot := next_plot w in
  let w1 := run_events plot (uPlotAction target w d0).1 es in
  color_evals (run_events plot w1 [EvUpdate d; EvRedraw]) = color_evals w1 + 2.
Proof.
  intros plot w1. unfold run_events at 1. cbn [fold_left chart_step].
  destruct (chart_inv_run plot d0 _ es (chart_inv_attach target w d0))
    as (u & Hu & Ha & _ & (s1 & Hs1 & _) & _).
  unfold redraw. rewrite (update_lookup _ _ _ u Hu). simpl.
  rewrite Ha, update_series_1 by (by eexists). simpl.
  change (color_evals (update plot d w1).1 + 1 + 1 = color_evals w1 + 2).
  destruct (update_counters plot d w1) as (_ & -> & _). lia.
Qed.

(** C6. Code bug: the action returns no [destroy], so after unmount the
    uPlot instance built at mount is still alive and attached to the
    element: its resources are never released. *)
Theorem uPlotAction_never_destroyed target (w : @chart_world C) d0 ds :
  exists u,
    plots (@run_lifecycle _ _ _ (uPlot_action target) w d0 ds) !! next_plot w = Some u /\
    u_alive u = true /\ u_target u = target.
Proof.
  destruct (@run_lifecycle_invariant _ _ _ (uPlot_action target)
              (fun s => s.2 = next_plot w /\
                 exists u, plots s.1 !! next_plot w = Some u /\ u_alive u = true /\
                   u_target u = target) w d0 ds eq_refl) as [h [_ Hu]]; [| |done].
  - split; [done|]. eexists. split; [apply lookup_insert_eq|]. done.
  - intros [w' h'] p [Hh (u & Hu & Ha & Ht)]. cbn [fst snd] in *. subst h'.
    change (@param_changed _ _ _ (uPlot_action target) (w', next_plot w) p)
      with (update (next_plot w) p w').
    split; [done|]. eexists. by rewrite (update_lookup _ _ _ u Hu).
Qed.

End Claims.

Lemma uPlotAction_constructs_witness :
  let '(w', plot) := uPlotAction 1 (mk_cw ∅ 0 [] 0) (mk_plot_data [] [] None) in
  plot = next_plot (C := color_term) (mk_cw ∅ 0 [] 0) /\ next_plot w' = S plot /\ store_wf w' /\
  plots w' !! plot =
    Some (mk_uplot (makePlotOptions (color_or_white None)) 1 [[]; []]
            (series (makePlotOptions (color_or_white None))) true true) /\
  (forall id, id <> plot -> plots w' !! id = plots (C := color_term) (mk_cw ∅ 0 [] 0) !! id) /\
  color_evals w' = color_evals (C := color_term) (mk_cw ∅ 0 [] 0) + 2.
Proof.
  apply (uPlotAction_constructs 1 (mk_cw ∅ 0 [] 0) (mk_plot_data [] [] None)).
  intros id _. apply lookup_empty.
Defined.

(** A run with the free colour model: mount without a colour, an update
    with [colord("#0f0")], a redraw. *)
Example chart_demo :
  let w1 := (uPlotAction 1 (mk_cw ∅ 0 [] 0) (mk_plot_data [Fin 0] [Fin 5] None)).1 in
  last (painted (run_events 0 w1
          [EvRedraw; EvUpdate (mk_plot_data [Fin 0; Fin 1] [Fin 5; Fin 7] (Some (colord "#0f0")));
           EvRedraw])) =
    Some (mk_paint 0 [[Fin 0; Fin 1]; [Fin 5; Fin 7]]
            (Some "colord(#0f0).alpha(7/10).lighten(1/5).toHslString()")
            (Some "colord(#0f0).alpha(1/2).lighten(1/5).toHslString()")).
Proof. vm_compute. reflexivity. Qed.

End Plot.
