(* ===== verification/Stores.v ===== *)
(** * The theme cells (src/src/lib/stores.ts) over Svelte's writable store

    [stores.ts] exports seven cells built with [writable] from
    [svelte/store]: six colours (colord objects) and the font family (a
    string).  The store itself is library code; [Store] models the contract
    of Svelte's [writable] at the level the cells use it:
    - [set(v)] changes the value and calls every subscriber with it, in
      subscription order, unless [safe_not_equal(value, v)] is false;
    - [update(fn)] is [set(fn(value))];
    - [subscribe(run)] adds a subscriber, calls [run(value)] at once and
      returns the unsubscriber, which removes that subscriber.
    A subscriber is named by the number [subscribe] hands out; what
    subscribers receive is the list of [notification]s the operations emit.

    [safe_not_equal] decides whether a [set] notifies.  Svelte's is
    [a != a ? b == b : a !== b || (a && typeof a === 'object') || typeof a
    === 'function']: on an object it is always true, on a string it is
    [a !== b].  The colour cells therefore notify on every [set], even of
    the same colour, and the font cell only on a different string.

    [Theme] models the module body: each [writable(...)] call allocates a
    store of its own in a heap ([writable_alloc]), and each colour export
    is the reference the call returned.  An operation on an export runs
    [store_step] on the store it refers to ([color_step], [run_theme]).
    The claim [theme_cells_independent] shows that the six colour cells
    start at the literals of [stores.ts] and behave as independent
    registers: a write through one export never shows through another. *)

From S2P Require Import Prelude Color.

Module Store.

Section Writable.
Context {V : Type}.
Context (safe_not_equal : V -> V -> bool).

(** The store's closure state: [value], the [subscribers] set (in
    insertion order) and the next subscriber's name. *)
Record writable := mk_writable {
  value : V;
  subscribers : list nat;
  next_subscriber : nat;
}.

(** [run(v)] called on subscriber [i]. *)
Definition notification : Type := nat * V.

(** [writable(value)] *)
Definition writable_init (v : V) : writable := mk_writable v [] 0.

(** [set(new_value)]: with no [start] callback, the store is "ready"
    exactly when it has a subscriber, and the loop over an empty set emits
    nothing, so the [if (stop)] guard needs no case of its own. *)
Definition set (nv : V) (s : writable) : writable * list notification :=
  if safe_not_equal (value s) nv then
    (mk_writable nv (subscribers s) (next_subscriber s),
     map (fun i => (i, nv)) (subscribers s))
  else (s, []).

(** [update(fn)] *)
Definition update (fn : V -> V) (s : writable) : writable * list notification :=
  set (fn (value s)) s.

(** [subscribe(run)]: returns the subscriber's name (its unsubscriber). *)
Definition subscribe (s : writable) : nat * (writable * list notification) :=
  let i := next_subscriber s in
  (i, (mk_writable (value s) (subscribers s ++ [i]) (S i), [(i, value s)])).

(** The unsubscriber of [i]: [subscribers.delete(subscriber)]. *)
Definition unsubscribe (i : nat) (s : writable) : writable * list notification :=
  (mk_writable (value s) (filter (fun j => j <> i) (subscribers s)) (next_subscriber s), []).

Inductive store_op :=
| OpSet (v : V)
| OpUpdate (fn : V -> V)
| OpSubscribe
| OpUnsubscribe (i : nat).

Definition store_step (op : store_op) (s : writable) : writable * list notification :=
  match op with
  | OpSet v => set v s
  | OpUpdate fn => update fn s
  | OpSubscribe => (subscribe s).2
  | OpUnsubscribe i => unsubscribe i s
  end.

(** A sequence of operations, accumulating what the subscribers receive. *)
Fixpoint run_store (ops : list store_op) (s : writable) (log : list notification)
    : writable * list notification :=
  match ops with
  | [] => (s, log)
  | op :: ops => run_store ops (store_step op s).1 (log ++ (store_step op s).2)
  end.

(** The value a plain register would hold after the same writes. *)
Definition register_value (ops : list store_op) (v : V) : V :=
  fold_left (fun cur op =>
    match op with
    | OpSet nv => nv
    | OpUpdate fn => fn cur
    | _ => cur
    end) ops v.

(** A store whose [safe_not_equal] only skips writes of an equal value
    holds what a register would. *)
Lemma run_store_register ops s log :
  (forall a b, safe_not_equal a b = false -> a = b) ->
  value (run_store ops s log).1 = register_value ops (value s).
Proof.
  intros Hsne. revert s log. induction ops as [|op ops IH]; intros s log; [done|].
  simpl. rewrite IH. f_equal.
  destruct op as [v|fn| |j]; simpl; unfold update, set, unsubscribe; try done.
  all: destruct (safe_not_equal _ _) eqn:E; simpl; [done | by apply Hsne].
Qed.

Lemma store_step_register op s :
  (forall a b, safe_not_equal a b = false -> a = b) ->
  value (store_step op s).1 = register_value [op] (value s).
Proof. intros Hsne. exact (run_store_register [op] s [] Hsne). Qed.

End Writable.

Arguments store_op V : clear implicits.

(** [safe_not_equal] on the values the cells hold. *)
Definition safe_not_equal_object {C} (a b : C) : bool := true.

Definition safe_not_equal_string (a b : string) : bool := negb (bool_decide (a = b)).

Lemma safe_not_equal_object_sound {C} (a b : C) : safe_not_equal_object a b = false -> a = b.
Proof. done. Qed.

Lemma safe_not_equal_string_sound a b : safe_not_equal_string a b = false -> a = b.
Proof. unfold safe_not_equal_string. destruct (bool_decide _) eqn:E; [|done]. by apply bool_decide_eq_true in E. Qed.

End Store.

Module Theme.
Import Store.

Section WithColor.
Context {C : Type} `{!Colord C}.

(** The colour stores the module's [writable(...)] calls create, by
    reference: each call allocates a store of its own. *)
Record store_heap := mk_store_heap {
  color_stores : gmap positive (writable (V:=C));
  next_store : positive;
}.

(** [writable(v)] *)
Definition writable_alloc (v : C) (h : store_heap) : positive * store_heap :=
  (next_store h, mk_store_heap (<[next_store h := writable_init v]> (color_stores h))
                               (Pos.succ (next_store h))).

(** The exports of [stores.ts]: each colour name bound to a store, the
    font store, and the heap of colour stores. *)
Record theme := mk_theme {
  foregroundColor : positive;
  backgroundColor : positive;
  titleColor : positive;
  accentColor : positive;
  arcTrackColor : positive;
  arcCapColor : positive;
  fontFamily : writable (V:=string);
  stores : store_heap;
}.

(** The module's body, line by line. *)
Definition theme_init : theme :=
  let h0 := mk_store_heap ∅ 1 in
  let '(fg, h1) := writable_alloc (colord "#ffffff") h0 in
  let '(bg, h2) := writable_alloc (colord "rgba(0, 0, 0, 0.5)") h1 in
  let '(ti, h3) := writable_alloc (colord "#00ff00") h2 in
  let '(ac, h4) := writable_alloc (colord "#ff00ff") h3 in
  let '(tr, h5) := writable_alloc (colord "rgba(255, 255, 255, 0.2)") h4 in
  let '(cap, h6) := writable_alloc (colord "#ffffff") h5 in
  mk_theme fg bg ti ac tr cap (writable_init "Inter, Avenir, Helvetica, Arial, sans-serif") h6.

(** The colour cells, by name. *)
Inductive color_cell := Foreground | Background | Title | Accent | ArcTrack | ArcCap.

#[export] Instance color_cell_eq_dec : EqDecision color_cell.
Proof. solve_decision. Defined.

Definition color_of (k : color_cell) (t : theme) : positive :=
  match k with
  | Foreground => foregroundColor t
  | Background => backgroundColor t
  | Title => titleColor t
  | Accent => accentColor t
  | ArcTrack => arcTrackColor t
  | ArcCap => arcCapColor t
  end.

(** A widget's [set], [update], [subscribe] or unsubscribe on the store a
    colour export refers to. *)
Definition color_step (o : color_cell * store_op C) (t : theme) : theme :=
  let l := color_of o.1 t in
  match color_stores (stores t) !! l with
  | Some s =>
      mk_theme (foregroundColor t) (backgroundColor t) (titleColor t) (accentColor t)
        (arcTrackColor t) (arcCapColor t) (fontFamily t)
        (mk_store_heap (<[l := (store_step safe_not_equal_object o.2 s).1]> (color_stores (stores t)))
                       (next_store (stores t)))
  | None => t
  end.

Definition run_theme (ops : list (color_cell * store_op C)) (t : theme) : theme :=
  fold_left (fun t o => color_step o t) ops t.

(** What a cell currently holds. *)
Definition cell_value (k : color_cell) (t : theme) : option C :=
  value <$> color_stores (stores t) !! color_of k t.

(** The writes a sequence makes to one cell. *)
Definition ops_on (k : color_cell) (ops : list (color_cell * store_op C)) : list (store_op C) :=
  map snd (filter (fun o => o.1 = k) ops).

(** Distinct exports refer to distinct, allocated stores. *)
Definition theme_wf (t : theme) : Prop :=
  (forall k k', k <> k' -> color_of k t <> color_of k' t) /\
  (forall k, is_Some (color_stores (stores t) !! color_of k t)).

(** ** Lemmas *)

Lemma color_step_refs o t k : color_of k (color_step o t) = color_of k t.
Proof. unfold color_step. by destruct (_ !! _), k. Qed.

Lemma color_step_wf o t : theme_wf t -> theme_wf (color_step o t).
Proof.
  intros [Hinj Hall]. split; intros; rewrite !color_step_refs; [by apply Hinj|].
  unfold color_step. destruct (_ !! color_of o.1 t) eqn:E; [|apply Hall].
  cbn [stores color_stores]. destruct (decide (color_of k t = color_of o.1 t)) as [->|Hne].
  - rewrite lookup_insert_eq. by eexists.
  - rewrite lookup_insert_ne by done. apply Hall.
Qed.

(** One operation changes its own cell as a register does and leaves
    every other cell alone. *)
Lemma color_step_value o t k :
  theme_wf t ->
  cell_value k (color_step o t) =
    if decide (o.1 = k) then register_value [o.2] <$> cell_value k t else cell_value k t.
Proof.
  intros [Hinj Hall]. unfold cell_value. rewrite color_step_refs. unfold color_step.
  destruct (Hall o.1) as [s Hs]. rewrite Hs. cbn [stores color_stores].
  case_decide as Hk.
  - subst k. rewrite lookup_insert_eq, Hs. simpl. f_equal.
    apply store_step_register, safe_not_equal_object_sound.
  - rewrite lookup_insert_ne; [done|]. apply not_eq_sym, Hinj, not_eq_sym, Hk.
Qed.

Lemma run_theme_value ops t k :
  theme_wf t -> cell_value k (run_theme ops t) = register_value (ops_on k ops) <$> cell_value k t.
Proof.
  revert t. induction ops as [|o ops IH]; intros t Hwf; simpl.
  - by destruct (cell_value k t).
  - unfold run_theme in IH. rewrite IH by (by apply color_step_wf).
    rewrite color_step_value by done. unfold ops_on. rewrite filter_cons.
    case_decide; simpl; [|done]. by destruct (cell_value k t).
Qed.

Lemma theme_init_wf : theme_wf theme_init.
Proof.
  split.
  - intros [] [] Hne; simpl; try congruence; discriminate.
  - intros []; simpl; by eexists.
Qed.

End WithColor.

(** ** Claims *)

(** C24. The theme is six independent colour registers and a font
    register, starting from the values [stores.ts] gives: after any
    sequence of [set], [update], [subscribe] and unsubscribe calls on the
    colour exports, each colour cell holds what a register would after
    the writes made to that cell alone, starting from its literal in
    [stores.ts]; no write to one cell shows in another (each export is a
    store of its own); and the font cell likewise from its literal. *)
Theorem theme_cells_independent `{Colord C} (ops : list (color_cell * store_op C))
    (fops : list (store_op string)) :
  (forall k, cell_value k (run_theme ops theme_init) =
     Some (register_value (ops_on k ops)
             (colord (match k with
                      | Foreground => "#ffffff"
                      | Background => "rgba(0, 0, 0, 0.5)"
                      | Title => "#00ff00"
                      | Accent => "#ff00ff"
                      | ArcTrack => "rgba(255, 255, 255, 0.2)"
                      | ArcCap => "#ffffff"
                      end)))) /\
  value (run_store safe_not_equal_string fops (fontFamily theme_init) []).1 =
    register_value fops "Inter, Avenir, Helvetica, Arial, sans-serif".
Proof.
  split.
  - intros k. rewrite run_theme_value by apply theme_init_wf. by destruct k.
  - apply run_store_register, safe_not_equal_string_sound.
Qed.

(** Setting a colour to the value it already holds calls every
    subscriber again; setting the font to the string it holds calls
    none. *)
Remark set_same_value_notifications {C} (s : writable (V:=C)) (f : writable (V:=string)) :
  (set safe_not_equal_object (value s) s).2 = map (fun i => (i, value s)) (subscribers s) /\
  (set safe_not_equal_string (value f) f).2 = [].
Proof.
  split; [done|]. unfold set, safe_not_equal_string. by rewrite bool_decide_eq_true_2.
Qed.

End Theme.

(** Setting the foreground leaves the arc-cap colour, which starts with
    the same literal, unchanged: they are different stores. *)
Example theme_demo :
  Theme.cell_value Theme.ArcCap
    (Theme.run_theme [(Theme.Foreground, Store.OpSet (CParse "#123456"))]
       (@Theme.theme_init _ ColorTerm)) = Some (CParse "#ffffff") /\
  Theme.cell_value Theme.Foreground
    (Theme.run_theme [(Theme.Foreground, Store.OpSet (CParse "#123456"))]
       (@Theme.theme_init _ ColorTerm)) = Some (CParse "#123456").
Proof. vm_compute. split; reflexivity. Qed.

(** Two subscribers on the accent colour, one of them leaving, then a
    [set]: only the one still subscribed is called. *)
Example store_demo :
  Store.run_store Store.safe_not_equal_object
    [Store.OpSubscribe; Store.OpSubscribe; Store.OpUnsubscribe 0; Store.OpSet (CParse "#123456")]
    (Store.writable_init (CParse "#ff00ff")) [] =
  (Store.mk_writable (CParse "#123456") [1] 2,
   [(0, CParse "#ff00ff"); (1, CParse "#ff00ff"); (1, CParse "#123456")]).
Proof. vm_compute. reflexivity. Qed.
