(* ===== verification/Types.v ===== *)
(** * The telemetry snapshot the dashboard consumes (src/src/vite-env.d.ts)

    [vite-env.d.ts] declares, as ambient TypeScript interfaces, the shape of
    the [Data] snapshot the collector sends and of its parts.  Each
    interface is a [Record] with the interface's field names:
    - [number] is a JavaScript number ([JsNumber.number]);
    - [T | null] is [option T], null being [None];
    - an optional field [f?: T] is [option T], absent being [None];
    - [Array<T>] is [list T] and a tuple [[A, B]] is a pair;
    - [Record<string, T>] is a [gmap string T]: the dashboard only looks
      entries up by name.
    The declarations carry no code; nothing here is assumed of the values
    beyond their types.  Each interface has a Module of its own, so that
    the field names are the source's even where two interfaces share one
    ([name], [uptime], ...). *)

From S2P Require Import Prelude JsNumber.

Module Types.

Module CPUData.
Record CPUData := mk_CPUData {
  cpu_usage : number;
}.
End CPUData.

Module Process.
Record Process := mk_Process {
  name : string;
  command : string;
  pid : string;
  parent_pid : option string;
  cpu_usage_percent : number;
  mem_usage_percent : number;
  mem_usage_bytes : number;
  read_bytes_per_sec : number;
  write_bytes_per_sec : number;
  total_read_bytes : number;
  total_write_bytes : number;
  process_state : string * string;
  uid : option string;
  user : option string;
}.
End Process.

Module DiskData.
Record DiskData := mk_DiskData {
  name : string;
  mount_point : string;
  free_space : option number;
  used_space : option number;
  total_space : option number;
}.
End DiskData.

Module MemData.
Record MemData := mk_MemData {
  mem_total_in_kib : number;
  mem_used_in_kib : number;
  use_percent : option number;
}.
End MemData.

Module NetData.
Record NetData := mk_NetData {
  rx : number;
  tx : number;
  total_rx : number;
  total_tx : number;
}.
End NetData.

Module TempData.
Record TempData := mk_TempData {
  name : string;
  temperature : number;
}.
End TempData.

Module BatteryData.
Record BatteryData := mk_BatteryData {
  charge_percent : number;
  secs_until_full : option number;
  secs_until_empty : option number;
  power_consumption_rate_watts : number;
  health_percent : number;
}.
End BatteryData.

Module SummaryData.
Record SummaryData := mk_SummaryData {
  uptime : string;
  hostname : option string;
  kernel_name : option string;
  kernel_version : option string;
  os_version : option string;
}.
End SummaryData.

Module IOData.
Record IOData := mk_IOData {
  read_bytes : number;
  write_bytes : number;
}.
End IOData.

Module Data.
Record Data := mk_Data {
  last_collection_time : number;
  uptime : string;
  hostname : option string;
  kernel_name : option string;
  kernel_version : option string;
  os_version : option string;
  list_of_processes : list Process.Process;
  cpu : list CPUData.CPUData;
  load_avg : list number;
  memory : MemData.MemData;
  swap : MemData.MemData;
  disks : list DiskData.DiskData;
  io : gmap string IOData.IOData;
  local_ip : option string;
  network : NetData.NetData;
  temperature_sensors : list TempData.TempData;
  list_of_batteries : option (list BatteryData.BatteryData);
  arc : option MemData.MemData;
  gpu : option (list (string * MemData.MemData));
}.
End Data.

(** The interfaces the file declares, in order. *)
Definition interface_names : list string :=
  ["CPUData"; "Process"; "DiskData"; "MemData"; "NetData"; "TempData";
   "BatteryData"; "SummaryData"; "IOData"; "Data"].

End Types.
