(* ===== verification/Eslint.v ===== *)
(** * The lint configuration (src/.eslintrc.cjs) and how ESLint applies it

    [.eslintrc.cjs] exports one configuration object.  [Eslint] gives it
    field by field ([config_extends] ... [config_rules], assembled in
    [config]) with the data types the object literal uses: rule settings
    that are a severity or an array of a severity and options, JSON-like
    option objects, override blocks with file patterns, and a setting whose
    value is the thunk [() => require("typescript")].

    The part of ESLint's configuration semantics (the "eslintrc" format)
    that decides what this object does to a file is modelled after it:
    - the cascade: configuration files from the file's directory upwards,
      nearest first, up to and including the first one with [root: true]
      ([collect]); they apply farthest first;
    - within one file: the configurations it [extends] (resolved by the
      parameter [ext]), then its own [env], [globals] and [rules], then
      the [overrides] blocks whose [files] patterns match the file;
    - rules: a later setting replaces an earlier one; a setting that is
      only a severity keeps the earlier options; an unknown severity makes
      the configuration invalid ([merge_rule] returns [None]);
    - globals: [true] is writable, [false] read-only; a global declared in
      [globals] wins over one an enabled [env] provides (the parameter
      [env_globals]);
    - file patterns: a pattern without "/" is matched against the file's
      base name ([matchBase]), with [*] standing for any characters but
      "/" and [?] for one such character, leading dots included
      ([dot: true]); brace, class and [**] patterns are not modelled (the
      configuration uses none).
    The rules' own checks (what [eqeqeq] or [camelcase] report) belong to
    ESLint and its plugins and are not modelled. *)

From S2P Require Import Prelude Types.
From Stdlib Require Import Ascii.

Module Eslint.

(** ** The configuration object *)

(** Option values of the object literal. *)
#[warnings="-register-all"]
Inductive json :=
| JsonStr (s : string)
| JsonBool (b : bool)
| JsonObj (fields : list (string * json)).

(** A rule's value: ["error"], or [["error", { ... }]]. *)
Inductive rule_setting :=
| RuleSev (severity : string)
| RuleSevOpts (severity : string) (options : list json).

Record override := mk_override {
  ov_files : list string;
  ov_processor : option string;
}.

(** [() => require(module)] *)
Inductive setting_value :=
| RequireThunk (module : string).

Record parser_options := mk_parser_options {
  sourceType : string;
  ecmaVersion : Z;
}.

Record eslintrc := mk_eslintrc {
  root : bool;
  parser : option string;
  extends : list string;
  plugins : list string;
  overrides : list override;
  settings : list (string * setting_value);
  parserOptions : option parser_options;
  env : list (string * bool);
  globals : list (string * bool);
  rules : list (string * rule_setting);
}.

Definition config_extends : list string :=
  ["eslint:recommended"; "plugin:@typescript-eslint/recommended";
   "plugin:import/recommended"; "prettier"].

Definition config_plugins : list string := ["svelte3"; "@typescript-eslint"].

Definition config_overrides : list override :=
  [mk_override ["*.svelte"] (Some "svelte3/svelte3")].

Definition config_settings : list (string * setting_value) :=
  [("svelte3/typescript", RequireThunk "typescript")].

Definition config_parserOptions : parser_options := mk_parser_options "module" 2022.

Definition config_env : list (string * bool) :=
  [("browser", true); ("es2017", true); ("node", true)].

Definition config_globals : list (string * bool) :=
  [("Data", true); ("SummaryData", true); ("CPUData", true); ("MemData", true);
   ("NetData", true); ("DiskData", true); ("TempData", true); ("IOData", true);
   ("BatteryData", true); ("Process", true)].

Definition config_rules : list (string * rule_setting) :=
  [("@typescript-eslint/ban-ts-comment", RuleSev "off");
   ("@typescript-eslint/no-empty-function", RuleSev "off");
   ("@typescript-eslint/no-explicit-any", RuleSev "off");
   ("@typescript-eslint/no-non-null-assertion", RuleSev "off");
   ("@typescript-eslint/no-unused-vars", RuleSev "off");
   ("camelcase", RuleSevOpts "error"
      [JsonObj [("properties", JsonStr "never"); ("ignoreDestructuring", JsonBool true)]]);
   ("eqeqeq", RuleSev "error");
   ("func-names", RuleSev "error");
   ("import/order", RuleSev "error");
   ("import/no-unresolved", RuleSev "off");
   ("no-unused-vars", RuleSevOpts "error"
      [JsonObj [("varsIgnorePattern", JsonStr "^_"); ("argsIgnorePattern", JsonStr "^_")]]);
   ("no-var", RuleSev "error");
   ("prefer-arrow-callback", RuleSev "error");
   ("prefer-const", RuleSev "off");
   ("require-await", RuleSev "error")].

(** [module.exports = { ... }] *)
Definition config : eslintrc := {|
  root := true;
  parser := Some "@typescript-eslint/parser";
  extends := config_extends;
  plugins := config_plugins;
  overrides := config_overrides;
  settings := config_settings;
  parserOptions := Some config_parserOptions;
  env := config_env;
  globals := config_globals;
  rules := config_rules;
|}.

(** ** ESLint's reading of a configuration *)

Inductive severity := SevOff | SevWarn | SevError.

#[export] Instance severity_eq_dec : EqDecision severity.
Proof. solve_decision. Defined.

Definition severity_of (s : string) : option severity :=
  if decide (s = "off") then Some SevOff
  else if decide (s = "warn") then Some SevWarn
  else if decide (s = "error") then Some SevError
  else None.

Definition rule_severity (r : rule_setting) : string :=
  match r with RuleSev s | RuleSevOpts s _ => s end.

(** A rule as ESLint runs it: its severity and options. *)
Definition rule_config : Type := severity * list json.

(** A later setting over an earlier one: a bare severity keeps the
    earlier options. *)
Definition merge_rule (old : option rule_config) (r : rule_setting) : option rule_config :=
  match r with
  | RuleSev s => sev ← severity_of s; Some (sev, default [] (snd <$> old))
  | RuleSevOpts s o => sev ← severity_of s; Some (sev, o)
  end.

Fixpoint apply_rules (m : gmap string rule_config) (rs : list (string * rule_setting))
    : option (gmap string rule_config) :=
  match rs with
  | [] => Some m
  | (n, r) :: rs => c ← merge_rule (m !! n) r; apply_rules (<[n := c]> m) rs
  end.

Inductive global_access := GWritable | GReadonly | GOff.

#[export] Instance global_access_eq_dec : EqDecision global_access.
Proof. solve_decision. Defined.

Definition global_of_bool (b : bool) : global_access := if b then GWritable else GReadonly.

(** *** File patterns *)

Inductive glob_tok := GStar | GAny | GChar (c : ascii).

Definition glob_tokens (pat : string) : list glob_tok :=
  map (fun c => if decide (c = "*"%char) then GStar
                else if decide (c = "?"%char) then GAny else GChar c)
      (String.list_ascii_of_string pat).

(** Which strings a pattern denotes. *)
Inductive gmatch : list glob_tok -> list ascii -> Prop :=
| gm_nil : gmatch [] []
| gm_char c p s : gmatch p s -> gmatch (GChar c :: p) (c :: s)
| gm_any c p s : c <> "/"%char -> gmatch p s -> gmatch (GAny :: p) (c :: s)
| gm_star_nil p s : gmatch p s -> gmatch (GStar :: p) s
| gm_star_cons c p s : c <> "/"%char -> gmatch (GStar :: p) s -> gmatch (GStar :: p) (c :: s).

(** The matcher, backtracking over what [*] consumes. *)
Fixpoint glob_match (p : list glob_tok) (s : list ascii) : bool :=
  match p with
  | [] => match s with [] => true | _ :: _ => false end
  | GChar c :: p' =>
      match s with c' :: s' => bool_decide (c = c') && glob_match p' s' | [] => false end
  | GAny :: p' =>
      match s with c' :: s' => bool_decide (c' <> "/"%char) && glob_match p' s' | [] => false end
  | GStar :: p' =>
      (fix star (s : list ascii) : bool :=
         glob_match p' s ||
         match s with c :: s' => bool_decide (c <> "/"%char) && star s' | [] => false end) s
  end.

(** The last segment of a path. *)
Fixpoint basename_acc (acc : list ascii) (path : list ascii) : list ascii :=
  match path with
  | [] => acc
  | c :: path' => if decide (c = "/"%char) then basename_acc [] path' else basename_acc (acc ++ [c]) path'
  end.

Definition basename (path : list ascii) : list ascii := basename_acc [] path.

Definition pattern_matches (pat : string) (path : list ascii) : bool :=
  if decide ("/"%char ∈ String.list_ascii_of_string pat)
  then glob_match (glob_tokens pat) path
  else glob_match (glob_tokens pat) (basename path).

(** *** One configuration file, and the cascade *)

(** What the configurations an [extends] entry names contribute. *)
Record ext_config := mk_ext_config {
  ext_rules : list (string * rule_setting);
  ext_globals : list (string * global_access);
}.

Record lint_config := mk_lint_config {
  lc_rules : gmap string rule_config;
  lc_env : gmap string bool;
  lc_globals : gmap string global_access;
  lc_processor : option string;
}.

Definition lint_empty : lint_config := mk_lint_config ∅ ∅ ∅ None.

Section Semantics.
Context (ext : string -> ext_config).
Context (env_globals : string -> list (string * global_access)).

Definition insert_all {A} (m : gmap string A) (kvs : list (string * A)) : gmap string A :=
  fold_left (fun m kv => <[kv.1 := kv.2]> m) kvs m.

(** An [extends] entry. *)
Definition apply_extends (lc : lint_config) (e : string) : option lint_config :=
  rs ← apply_rules (lc_rules lc) (ext_rules (ext e));
  Some (mk_lint_config rs (lc_env lc) (insert_all (lc_globals lc) (ext_globals (ext e)))
          (lc_processor lc)).

Fixpoint apply_extends_all (lc : lint_config) (es : list string) : option lint_config :=
  match es with
  | [] => Some lc
  | e :: es => lc' ← apply_extends lc e; apply_extends_all lc' es
  end.

(** The override blocks matching the file set the processor. *)
Definition apply_overrides (lc : lint_config) (ovs : list override) (path : list ascii) : lint_config :=
  fold_left (fun lc ov =>
    if existsb (fun pat => pattern_matches pat path) (ov_files ov)
    then mk_lint_config (lc_rules lc) (lc_env lc) (lc_globals lc)
           (match ov_processor ov with Some p => Some p | None => lc_processor lc end)
    else lc) ovs lc.

(** One configuration file: [extends], its own element, its overrides. *)
Definition apply_layer (path : list ascii) (lc : lint_config) (c : eslintrc) : option lint_config :=
  lc1 ← apply_extends_all lc (extends c);
  rs ← apply_rules (lc_rules lc1) (rules c);
  Some (apply_overrides
          (mk_lint_config rs (insert_all (lc_env lc1) (env c))
             (insert_all (lc_globals lc1) (map (fun g => (g.1, global_of_bool g.2)) (globals c)))
             (lc_processor lc1))
          (overrides c) path).

(** The configuration files that apply, nearest first. *)
Fixpoint collect (chain : list eslintrc) : list eslintrc :=
  match chain with
  | [] => []
  | c :: chain => if root c then [c] else c :: collect chain
  end.

Fixpoint apply_layers (path : list ascii) (lc : lint_config) (cs : list eslintrc) : option lint_config :=
  match cs with
  | [] => Some lc
  | c :: cs => lc' ← apply_layer path lc c; apply_layers path lc' cs
  end.

(** The configuration ESLint computes for a file, given the configuration
    files from its directory upwards. *)
Definition lint (chain : list eslintrc) (path : list ascii) : option lint_config :=
  apply_layers path lint_empty (rev (collect chain)).

(** A global's access in the resolved configuration: declared globals
    first, then the globals of the enabled environments. *)
Definition resolve_global (lc : lint_config) (name : string) : option global_access :=
  match lc_globals lc !! name with
  | Some g => Some g
  | None =>
      snd <$> head (filter (fun kv : string * global_access => kv.1 = name)
        (concat (map (fun e : string * bool => if e.2 then env_globals e.1 else [])
                   (map_to_list (lc_env lc)))))
  end.
End Semantics.

(** ** Lemmas *)

(** *** Patterns *)

Lemma glob_match_star p s :
  glob_match (GStar :: p) s =
  glob_match p s || match s with c :: s' => bool_decide (c <> "/"%char) && glob_match (GStar :: p) s' | [] => false end.
Proof. by destruct s. Qed.

Lemma glob_match_gmatch p s : glob_match p s = true <-> gmatch p s.
Proof.
  revert s. induction p as [|[| |c] p IH]; intros s.
  - destruct s; simpl; split; try done; [constructor | inversion 1].
  - induction s as [|c s IHs]; rewrite glob_match_star, orb_true_iff, IH.
    + split; [intros [H|H]; [by constructor | done] | inversion 1; subst; auto].
    + rewrite andb_true_iff, bool_decide_eq_true, IHs. split.
      * intros [H|[Hc H]]; [by constructor | by apply gm_star_cons].
      * inversion 1; subst; auto.
  - destruct s as [|c s]; simpl; [split; [done | inversion 1]|].
    rewrite andb_true_iff, bool_decide_eq_true, IH.
    split; [intros [? ?]; by constructor | inversion 1; subst; auto].
  - destruct s as [|c' s]; simpl; [split; [done | inversion 1]|].
    rewrite andb_true_iff, bool_decide_eq_true, IH.
    split; [intros [-> ?]; by constructor | inversion 1; subst; auto].
Qed.

Lemma gmatch_lit lit s : gmatch (map GChar lit) s <-> s = lit.
Proof.
  revert s. induction lit as [|c lit IH]; intros s; simpl.
  - split; [inversion 1; done | intros ->; constructor].
  - split; [inversion 1; subst; f_equal; by apply IH | intros ->; constructor; by apply IH].
Qed.

(** [*lit] denotes the strings that end in [lit] after a part without "/". *)
Lemma gmatch_star_lit lit s :
  gmatch (GStar :: map GChar lit) s <-> exists x, s = x ++ lit /\ Forall (fun c => c <> "/"%char) x.
Proof.
  split.
  - induction s as [|c s IH]; inversion 1; subst.
    + exists []. split; [|constructor]. by apply gmatch_lit in H1.
    + exists []. split; [|constructor]. by apply gmatch_lit in H1.
    + destruct (IH H4) as (x & -> & Hx). exists (c :: x). split; [done|by constructor].
  - intros (x & -> & Hx). induction x as [|c x IH]; simpl.
    + constructor. by apply gmatch_lit.
    + apply Forall_cons in Hx as [Hc Hx]. apply gm_star_cons; auto.
Qed.

Lemma basename_acc_no_slash acc path :
  Forall (fun c => c <> "/"%char) acc -> Forall (fun c => c <> "/"%char) (basename_acc acc path).
Proof.
  revert acc. induction path as [|c path IH]; intros acc Hacc; simpl; [done|].
  case_decide; apply IH; [constructor|]. apply Forall_app. split; [done|by repeat constructor].
Qed.

Lemma basename_no_slash path : Forall (fun c => c <> "/"%char) (basename path).
Proof. apply basename_acc_no_slash. constructor. Qed.

(** A pattern [*lit] with no "/" in [lit] matches the files whose base name
    ends in [lit]. *)
Lemma pattern_star_suffix (lit : string) path :
  glob_tokens ("*" +:+ lit) = GStar :: map GChar (String.list_ascii_of_string lit) ->
  "/"%char ∉ String.list_ascii_of_string ("*" +:+ lit) ->
  pattern_matches ("*" +:+ lit) path = true <->
  exists x, basename path = x ++ String.list_ascii_of_string lit.
Proof.
  intros Htok Hslash. unfold pattern_matches. rewrite decide_False by done.
  rewrite glob_match_gmatch, Htok, gmatch_star_lit.
  split; [intros (x & Hx & _); by exists x|].
  intros [x Hx]. exists x. split; [done|].
  pose proof (basename_no_slash path) as Hb. rewrite Hx in Hb. by apply Forall_app in Hb as [? _].
Qed.

(** *** Rules and globals *)

Definition valid_setting (r : string * rule_setting) : Prop := is_Some (severity_of (rule_severity r.2)).

Lemma merge_rule_Some old r : is_Some (severity_of (rule_severity r)) -> is_Some (merge_rule old r).
Proof. intros [sev Hs]. destruct r; simpl in *; rewrite Hs; by eexists. Qed.

Lemma merge_rule_spec old r c :
  merge_rule old r = Some c ->
  severity_of (rule_severity r) = Some c.1 /\ (forall s o, r = RuleSevOpts s o -> c.2 = o).
Proof.
  destruct r as [s|s o]; simpl; destruct (severity_of s) eqn:E; simpl; intros Hc; simplify_eq;
    split; try done; intros ? ? Heq; by simplify_eq.
Qed.

Lemma apply_rules_Some m rs : Forall valid_setting rs -> is_Some (apply_rules m rs).
Proof.
  revert m. induction rs as [|[n r] rs IH]; intros m Hrs; simpl; [by eexists|].
  apply Forall_cons in Hrs as [Hr Hrs].
  destruct (merge_rule_Some (m !! n) r Hr) as [c ->]. simpl. by apply IH.
Qed.

Lemma apply_rules_notin m rs m' n :
  n ∉ rs.*1 -> apply_rules m rs = Some m' -> m' !! n = m !! n.
Proof.
  revert m. induction rs as [|[n0 r] rs IH]; intros m Hn Hm; simpl in *; [by simplify_eq|].
  destruct (merge_rule _ _) as [c|]; [|done]. simpl in Hm.
  rewrite (IH _ ltac:(set_solver) Hm). apply lookup_insert_ne. set_solver.
Qed.

(** With distinct names, each rule ends up as its own setting merged over
    what was there before. *)
Lemma apply_rules_in m rs m' n r :
  NoDup rs.*1 -> (n, r) ∈ rs -> apply_rules m rs = Some m' ->
  exists c, m' !! n = Some c /\ merge_rule (m !! n) r = Some c.
Proof.
  revert m. induction rs as [|[n0 r0] rs IH]; intros m Hnd Hin Hm; [set_solver|].
  simpl in *. apply NoDup_cons in Hnd as [Hn0 Hnd].
  destruct (merge_rule (m !! n0) r0) as [c0|] eqn:E0; [|done]. simpl in Hm.
  apply elem_of_cons in Hin as [[= -> ->]|Hin].
  - exists c0. split; [|done]. rewrite (apply_rules_notin _ _ _ _ Hn0 Hm). apply lookup_insert_eq.
  - assert (n <> n0) by (intros ->; apply Hn0, (list_elem_of_fmap_2 fst _ (n0, r) Hin)).
    destruct (IH _ Hnd Hin Hm) as (c & Hc & Hmerge). exists c. split; [done|].
    by rewrite lookup_insert_ne in Hmerge by done.
Qed.

Lemma insert_all_notin {A} (m : gmap string A) kvs k : k ∉ kvs.*1 -> insert_all m kvs !! k = m !! k.
Proof.
  unfold insert_all. revert m. induction kvs as [|[k0 v0] kvs IH]; intros m Hk; [done|].
  simpl in *. rewrite IH by set_solver. apply lookup_insert_ne. set_solver.
Qed.

Lemma insert_all_in {A} (m : gmap string A) kvs k v :
  NoDup kvs.*1 -> (k, v) ∈ kvs -> insert_all m kvs !! k = Some v.
Proof.
  unfold insert_all. revert m. induction kvs as [|[k0 v0] kvs IH]; intros m Hnd Hin; [set_solver|].
  simpl in *. apply NoDup_cons in Hnd as [Hk0 Hnd].
  apply elem_of_cons in Hin as [[= -> ->]|Hin]; [|by apply IH].
  fold (insert_all (<[k0 := v0]> m) kvs). rewrite insert_all_notin by done. apply lookup_insert_eq.
Qed.

Lemma apply_overrides_fields lc ovs path :
  lc_rules (apply_overrides lc ovs path) = lc_rules lc /\
  lc_globals (apply_overrides lc ovs path) = lc_globals lc.
Proof.
  unfold apply_overrides. revert lc. induction ovs as [|ov ovs IH]; intros lc; [done|].
  simpl. match goal with |- context [fold_left _ ovs ?l] => destruct (IH l) as [-> ->] end.
  by destruct (existsb _ _).
Qed.

(** *** This configuration *)

Definition ext_valid (ext : string -> ext_config) : Prop :=
  forall e, Forall valid_setting (ext_rules (ext e)).

Lemma apply_extends_all_Some ext lc es :
  ext_valid ext ->
  exists lc', apply_extends_all ext lc es = Some lc' /\ lc_processor lc' = lc_processor lc.
Proof.
  intros Hext. revert lc. induction es as [|e es IH]; intros lc; simpl; [by eexists|].
  unfold apply_extends. destruct (apply_rules_Some (lc_rules lc) _ (Hext e)) as [rs ->].
  simpl. destruct (IH (mk_lint_config rs (lc_env lc) (insert_all (lc_globals lc) (ext_globals (ext e)))
                         (lc_processor lc))) as (lc' & -> & Hp).
  by exists lc'.
Qed.

(** With [root: true], the directories above never contribute. *)
Lemma lint_config_layer ext ancestors path :
  lint ext (config :: ancestors) path = apply_layer ext path lint_empty config.
Proof.
  unfold lint. change (collect (config :: ancestors)) with [config]. cbn [rev app apply_layers].
  by destruct (apply_layer ext path lint_empty config).
Qed.

Lemma config_rules_valid : Forall valid_setting config_rules.
Proof. unfold valid_setting. by_decide. Qed.

Lemma config_rules_nodup : NoDup config_rules.*1.
Proof. by_decide. Qed.

Lemma config_globals_nodup : NoDup (map (fun g : string * bool => (g.1, global_of_bool g.2)) config_globals).*1.
Proof. by_decide. Qed.

(** What this configuration gives a file: every rule as written (options
    kept from the extended configurations where only a severity is
    given), every declared global, and the Svelte processor exactly for
    the files [*.svelte] matches. *)
Lemma lint_config_spec ext ancestors path :
  ext_valid ext ->
  exists lc, lint ext (config :: ancestors) path = Some lc /\
    (forall n r, (n, r) ∈ config_rules -> exists c, lc_rules lc !! n = Some c /\
       severity_of (rule_severity r) = Some c.1 /\ (forall s o, r = RuleSevOpts s o -> c.2 = o)) /\
    (forall g b, (g, b) ∈ config_globals -> lc_globals lc !! g = Some (global_of_bool b)) /\
    lc_processor lc = if pattern_matches "*.svelte" path then Some "svelte3/svelte3" else None.
Proof.
  intros Hext. rewrite lint_config_layer. unfold apply_layer.
  destruct (apply_extends_all_Some ext lint_empty (extends config) Hext) as (lc1 & -> & Hp1).
  cbn [mbind option_bind].
  destruct (apply_rules_Some (lc_rules lc1) (rules config) config_rules_valid) as [rs Hrs].
  rewrite Hrs. cbn [mbind option_bind]. eexists. split; [reflexivity|].
  match goal with |- context [apply_overrides ?l _ _] =>
    destruct (apply_overrides_fields l (overrides config) path) as [Hr Hg] end.
  split_and!.
  - intros n r Hin. rewrite Hr. cbn [lc_rules].
    destruct (apply_rules_in _ _ _ _ _ config_rules_nodup Hin Hrs) as (c & Hc & Hm).
    exists c. split; [done|]. by apply merge_rule_spec in Hm.
  - intros g b Hin. rewrite Hg. cbn [lc_globals]. apply insert_all_in; [apply config_globals_nodup|].
    by apply (list_elem_of_fmap_2 (fun g : string * bool => (g.1, global_of_bool g.2)) _ (g, b)).
  - cbn [apply_overrides overrides config config_overrides fold_left ov_files ov_processor
         existsb lc_processor]. rewrite orb_false_r, Hp1. by destruct (pattern_matches _ _).
Qed.

(** ** Claims *)


(** C31. The interfaces [vite-env.d.ts] declares are exactly the globals
    the lint configuration declares, and each is a writable global in every
    file, whatever the environments and extended configurations provide. *)
Theorem eslint_types_are_globals ext eg ancestors path :
  ext_valid ext ->
  (map fst config_globals ≡ₚ Types.interface_names) /\
  exists lc, lint ext (config :: ancestors) path = Some lc /\
    forall name, name ∈ Types.interface_names -> resolve_global eg lc name = Some GWritable.
Proof.
  intros Hext. split; [by_decide|].
  destruct (lint_config_spec ext ancestors path Hext) as (lc & Hl & _ & Hg & _).
  exists lc. split; [done|]. intros name Hname. unfold resolve_global.
  rewrite (Hg name true); [done|].
  assert (Hall : Forall (fun n => (n, true) ∈ config_globals) Types.interface_names) by by_decide.
  rewrite Forall_forall in Hall. by apply Hall.
Qed.

(** C32. The Svelte processor runs on a file exactly when its base name
    ends in ".svelte", and no processor runs on any other file. *)
Theorem svelte_processor_exactly ext ancestors path :
  ext_valid ext ->
  exists lc, lint ext (config :: ancestors) path = Some lc /\
    (lc_processor lc = Some "svelte3/svelte3" <->
       exists x, basename path = x ++ String.list_ascii_of_string ".svelte") /\
    (lc_processor lc = None \/ lc_processor lc = Some "svelte3/svelte3").
Proof.
  intros Hext. destruct (lint_config_spec ext ancestors path Hext) as (lc & Hl & _ & _ & Hp).
  exists lc. split; [done|]. rewrite Hp.
  pose proof (pattern_star_suffix ".svelte" path eq_refl ltac:(by_decide)) as Hsuf.
  change ("*" +:+ ".svelte") with "*.svelte" in Hsuf.
  destruct (pattern_matches "*.svelte" path).
  - split; [|by right]. split; [intros _; by apply Hsuf | done].
  - split; [|by left]. split; [done|]. intros Hx. apply Hsuf in Hx. discriminate.
Qed.

End Eslint.

(** ** Concrete runs *)

(** No extended configuration sets anything; no environment provides
    globals. *)
Definition ext_none : string -> Eslint.ext_config := fun _ => Eslint.mk_ext_config [] [].

Lemma ext_none_valid : Eslint.ext_valid ext_none.
Proof. intros e. constructor. Qed.


Lemma eslint_types_are_globals_witness :
  Eslint.ext_valid ext_none /\
  (map fst Eslint.config_globals ≡ₚ Types.interface_names) /\
  exists lc, Eslint.lint ext_none [Eslint.config]
               (String.list_ascii_of_string "src/lib/actions.ts") = Some lc /\
    forall name, name ∈ Types.interface_names ->
      Eslint.resolve_global (fun _ => []) lc name = Some Eslint.GWritable.
Proof. split; [apply ext_none_valid | apply Eslint.eslint_types_are_globals, ext_none_valid]. Defined.

Lemma svelte_processor_exactly_witness :
  Eslint.ext_valid ext_none /\
  exists lc, Eslint.lint ext_none [Eslint.config]
               (String.list_ascii_of_string "src/App.svelte") = Some lc /\
    (Eslint.lc_processor lc = Some "svelte3/svelte3" <->
       exists x, Eslint.basename (String.list_ascii_of_string "src/App.svelte") =
                 x ++ String.list_ascii_of_string ".svelte") /\
    (Eslint.lc_processor lc = None \/ Eslint.lc_processor lc = Some "svelte3/svelte3").
Proof. split; [apply ext_none_valid | apply Eslint.svelte_processor_exactly, ext_none_valid]. Defined.

(** On "src/App.svelte" the processor runs; on "src/lib/utils.ts" it does
    not, and [eqeqeq] is an error there. *)
Example eslint_demo :
  option_map Eslint.lc_processor
    (Eslint.lint ext_none [Eslint.config] (String.list_ascii_of_string "src/App.svelte"))
    = Some (Some "svelte3/svelte3") /\
  option_map Eslint.lc_processor
    (Eslint.lint ext_none [Eslint.config] (String.list_ascii_of_string "src/lib/utils.ts"))
    = Some None /\
  option_map (fun lc => fst <$> Eslint.lc_rules lc !! "eqeqeq")
    (Eslint.lint ext_none [Eslint.config] (String.list_ascii_of_string "src/lib/utils.ts"))
    = Some (Some Eslint.SevError).
Proof. vm_compute. split_and!; reflexivity. Qed.
